(** * github-ci-status: a shallow embedding of [src/index.js] and
      [src/lib/github-utils.js], and the properties of their specification.

    A string is the sequence of its UTF-16 code units ([JsString.string]);
    [length], [padEnd], [endsWith], [split], the relational operator [<] and
    the regular expression all work on code units, as in JavaScript.  A
    value that may be [undefined] is an [option]; a call that may throw
    returns a [Js.completion]; an object whose identity matters is a
    [Js.Obj].

    The file has three parts: the program ([JsString], [Js], [Index],
    [GithubUtils]), the vocabulary of the specification ([SortSpec],
    [IndexSpec], [GithubUtilsSpec]), and the properties ([JsStringFacts],
    [JsFacts], [IndexProps], [GithubUtilsProps]). *)

From Stdlib Require Import List NArith ZArith Lia Bool.
From Stdlib Require Import Permutation Sorted RelationClasses.
From Stdlib Require Import Strings.Byte.
Import ListNotations.

(* ================================================================== *)
(** * Strings *)
(* ================================================================== *)

Module JsString.

(** A string is the sequence of its UTF-16 code units, each a number below
    65536; [length], the relational operators and the regular expressions
    of JavaScript all work on code units. *)
Inductive string : Set :=
| EmptyString
| String (c : N) (s : string).

Fixpoint append (s1 s2 : string) : string :=
  match s1 with
  | EmptyString => s2
  | String c s1' => String c (append s1' s2)
  end.

Fixpoint length (s : string) : nat :=
  match s with
  | EmptyString => 0
  | String _ s' => S (length s')
  end.

Fixpoint eqb (s1 s2 : string) : bool :=
  match s1, s2 with
  | EmptyString, EmptyString => true
  | String c1 s1', String c2 s2' => N.eqb c1 c2 && eqb s1' s2'
  | _, _ => false
  end.

(** The order of the relational operators: by code unit, a proper prefix
    first. *)
Fixpoint compare (s1 s2 : string) : comparison :=
  match s1, s2 with
  | EmptyString, EmptyString => Eq
  | EmptyString, String _ _ => Lt
  | String _ _, EmptyString => Gt
  | String c1 s1', String c2 s2' =>
      match N.compare c1 c2 with
      | Eq => compare s1' s2'
      | Lt => Lt
      | Gt => Gt
      end
  end.

Definition ltb (s1 s2 : string) : bool :=
  match compare s1 s2 with
  | Lt => true
  | _ => false
  end.

(** [take n s]: the first [n] code units of [s], all of [s] when it has
    fewer. *)
Fixpoint take (n : nat) (s : string) : string :=
  match s with
  | EmptyString => EmptyString
  | String c s' =>
      match n with
      | O => EmptyString
      | S n' => String c (take n' s')
      end
  end.

(** [drop n s]: [s] from index [n] on, empty when [s] has fewer code
    units. *)
Fixpoint drop (n : nat) (s : string) : string :=
  match s with
  | EmptyString => EmptyString
  | String _ s' =>
      match n with
      | O => s
      | S n' => drop n' s'
      end
  end.

Fixpoint concat (sep : string) (parts : list string) : string :=
  match parts with
  | [] => EmptyString
  | [part] => part
  | part :: rest => append part (append sep (concat sep rest))
  end.

(** ** String literals

    A literal of this file is the text between the quotes, read as UTF-8
    and written out in UTF-16 code units. *)
Definition continuation (b : N) : bool := (128 <=? b)%N && (b <? 192)%N.

Fixpoint of_bytes_N (bytes : list N) : option string :=
  match bytes with
  | [] => Some EmptyString
  | b :: rest =>
      if (b <? 128)%N then
        option_map (String b) (of_bytes_N rest)
      else if (b <? 192)%N then None
      else if (b <? 224)%N then
        match rest with
        | b1 :: rest' =>
            if continuation b1
            then option_map (String ((b - 192) * 64 + (b1 - 128))%N)
                   (of_bytes_N rest')
            else None
        | _ => None
        end
      else if (b <? 240)%N then
        match rest with
        | b1 :: b2 :: rest' =>
            if continuation b1 && continuation b2
            then option_map
                   (String ((b - 224) * 4096 + (b1 - 128) * 64 + (b2 - 128))%N)
                   (of_bytes_N rest')
            else None
        | _ => None
        end
      else if (b <? 248)%N then
        match rest with
        | b1 :: b2 :: b3 :: rest' =>
            if continuation b1 && continuation b2 && continuation b3
            then
              let point :=
                ((b - 240) * 262144 + (b1 - 128) * 4096 + (b2 - 128) * 64
                 + (b3 - 128))%N in
              let offset := (point - 65536)%N in
              option_map
                (fun s =>
                   String (55296 + offset / 1024)%N
                     (String (56320 + offset mod 1024)%N s))
                (of_bytes_N rest')
            else None
        | _ => None
        end
      else None
  end.

Definition of_bytes (bytes : list byte) : option string :=
  of_bytes_N (map Byte.to_N bytes).

Definition bytes_of_point (point : N) : list N :=
  if (point <? 128)%N then [point]
  else if (point <? 2048)%N then
    [192 + point / 64; 128 + point mod 64]%N
  else if (point <? 65536)%N then
    [224 + point / 4096; 128 + (point / 64) mod 64; 128 + point mod 64]%N
  else
    [240 + point / 262144; 128 + (point / 4096) mod 64;
     128 + (point / 64) mod 64; 128 + point mod 64]%N.

Definition isHighSurrogate (c : N) : bool := (55296 <=? c)%N && (c <? 56320)%N.
Definition isLowSurrogate (c : N) : bool := (56320 <=? c)%N && (c <? 57344)%N.

Fixpoint to_bytes_N (s : string) : option (list N) :=
  match s with
  | EmptyString => Some []
  | String c s' =>
      if isLowSurrogate c then None
      else if isHighSurrogate c then
        match s' with
        | String c' s'' =>
            if isLowSurrogate c'
            then option_map
                   (app (bytes_of_point
                           (65536 + (c - 55296) * 1024 + (c' - 56320))%N))
                   (to_bytes_N s'')
            else None
        | EmptyString => None
        end
      else if (c <? 65536)%N
      then option_map (app (bytes_of_point c)) (to_bytes_N s')
      else None
  end.

Fixpoint all_bytes (l : list N) : option (list byte) :=
  match l with
  | [] => Some []
  | n :: rest =>
      match Byte.of_N n, all_bytes rest with
      | Some b, Some bs => Some (b :: bs)
      | _, _ => None
      end
  end.

Definition to_bytes (s : string) : option (list byte) :=
  match to_bytes_N s with
  | Some l => all_bytes l
  | None => None
  end.

End JsString.

Import JsString.
Declare Scope js_scope.
Delimit Scope js_scope with js.
Bind Scope js_scope with string.
String Notation string JsString.of_bytes JsString.to_bytes : js_scope.
Infix "++" := JsString.append (right associativity, at level 60) : js_scope.
Open Scope js_scope.

(* ================================================================== *)
(** * The JavaScript built-ins the two modules call *)
(* ================================================================== *)

Module Js.

(** An [Error] object, as far as the program and its tests look at it. *)
Record Error := mkError { name : string; message : string }.

(** [new Error(msg)]: the [name] of a plain [Error] is inherited from
    [Error.prototype]. *)
Definition new_Error (msg : string) : Error :=
  {| name := "Error"; message := msg |}.

(** The outcome of a call: a value, or a thrown error. *)
Inductive completion (A : Type) : Type :=
| Normal (a : A)
| Throw (e : Error).
Arguments Normal {A} a.
Arguments Throw {A} e.

Definition bind {A B} (c : completion A) (k : A -> completion B) : completion B :=
  match c with
  | Normal a => k a
  | Throw e => Throw e
  end.

(** Control characters used in the output, each one code unit. *)
Definition TAB : string := String 9 "".
Definition LF : string := String 10 "".
Definition ESC : string := String 27 "".

(** The code units of the slash and of the space. *)
Definition slash : N := 47.
Definition space : N := 32.

(** [a === b] where [b] may be [undefined]. *)
Definition strict_eq (a : string) (b : option string) : bool :=
  match b with
  | Some b' => JsString.eqb a b'
  | None => false
  end.

(** Truthiness of a string-or-undefined value: [undefined], [null] and the
    empty string are falsy. *)
Definition truthy (v : option string) : bool :=
  match v with
  | Some s => negb (JsString.eqb s "")
  | None => false
  end.

(** [array.indexOf(x)]: the first index holding [x], or [-1]. *)
Fixpoint indexOf_from (i : Z) (array : list string) (x : string) : Z :=
  match array with
  | [] => -1
  | y :: rest => if JsString.eqb y x then i else indexOf_from (i + 1) rest x
  end.

Definition indexOf (array : list string) (x : string) : Z :=
  indexOf_from 0 array x.

(** [array[i]] for a number [i]: [undefined] outside the array. *)
Definition get (array : list string) (i : Z) : option string :=
  if (i <? 0)%Z then None else nth_error array (Z.to_nat i).

(** [v || d] for a string-or-undefined [v]. *)
Definition or_else (v : option string) (d : string) : string :=
  match v with
  | Some s => if JsString.eqb s "" then d else s
  | None => d
  end.

(** [s.endsWith(suffix)]. *)
Fixpoint endsWith (s suffix : string) : bool :=
  JsString.eqb s suffix ||
  match s with
  | EmptyString => false
  | String _ s' => endsWith s' suffix
  end.

(** [s.slice(0, -n)]: [s] without its last [n] code units. *)
Definition slice_0_neg (s : string) (n : nat) : string :=
  JsString.take (JsString.length s - n) s.

Fixpoint spaces (n : nat) : string :=
  match n with
  | O => ""
  | S n' => String space (spaces n')
  end.

(** [s.padEnd(targetLength)]: filled with spaces up to [targetLength]
    code units. *)
Definition padEnd (s : string) (targetLength : nat) : string :=
  s ++ spaces (targetLength - JsString.length s).

(** [s.split(sep)] for a separator of one code unit. *)
Fixpoint split (sep : N) (s : string) : list string :=
  match s with
  | EmptyString => [""]
  | String c s' =>
      if N.eqb c sep then "" :: split sep s'
      else match split sep s' with
           | part :: parts => String c part :: parts
           | [] => [String c ""]
           end
  end.

(** [a < b] on strings: the order of their code units. *)
Definition lt (a b : string) : bool := JsString.ltb a b.

(** [`${n}`] for a non-negative integer. *)
Fixpoint digits (d : Decimal.uint) : string :=
  match d with
  | Decimal.Nil => ""
  | Decimal.D0 d' => String 48 (digits d')
  | Decimal.D1 d' => String 49 (digits d')
  | Decimal.D2 d' => String 50 (digits d')
  | Decimal.D3 d' => String 51 (digits d')
  | Decimal.D4 d' => String 52 (digits d')
  | Decimal.D5 d' => String 53 (digits d')
  | Decimal.D6 d' => String 54 (digits d')
  | Decimal.D7 d' => String 55 (digits d')
  | Decimal.D8 d' => String 56 (digits d')
  | Decimal.D9 d' => String 57 (digits d')
  end.

Definition toString (n : nat) : string := digits (Nat.to_uint n).

(** [array.join(sep)]. *)
Definition join (sep : string) (array : list string) : string :=
  JsString.concat sep array.

(** [array.sort(comparefn)].  The built-in is a comparison sort that decides
    through the sign of [comparefn(x, y)] (negative: [x] first; positive: [y]
    first) and lets an exception of [comparefn] escape; which pairs it
    compares is left to the implementation.  It is modelled by a stable
    insertion sort.  For the comparator of this program the sorted array
    does not depend on that choice ([sorted_remotes_unique] below). *)
Section Sort.
Context {A : Type} (comparefn : A -> A -> completion Z).

Fixpoint sort_insert (x : A) (sorted : list A) : completion (list A) :=
  match sorted with
  | [] => Normal [x]
  | y :: rest =>
      bind (comparefn x y) (fun order =>
        if (order >? 0)%Z
        then bind (sort_insert x rest) (fun rest' => Normal (y :: rest'))
        else Normal (x :: y :: rest))
  end.

Fixpoint sort (array : list A) : completion (list A) :=
  match array with
  | [] => Normal []
  | x :: rest => bind (sort rest) (sort_insert x)
  end.

End Sort.

(** Objects have an identity: an object is a value together with the
    address it was allocated at, and the heap is the next free address. *)
Definition Ref := nat.

Record Obj (A : Type) : Type := mkObj { ref : Ref; value : A }.
Arguments mkObj {A} ref value.
Arguments ref {A} o.
Arguments value {A} o.

(** [array.map(f)] for a callback that allocates. *)
Fixpoint map_alloc {A B} (f : A -> Ref -> B * Ref) (array : list A) (heap : Ref)
  : list B * Ref :=
  match array with
  | [] => ([], heap)
  | x :: rest =>
      let (y, heap1) := f x heap in
      let (ys, heap2) := map_alloc f rest heap1 in
      (y :: ys, heap2)
  end.

(** [array.filter(Boolean)] on an array of objects and [undefined]. *)
Fixpoint filter_Boolean {A} (array : list (option A)) : list A :=
  match array with
  | [] => []
  | Some x :: rest => x :: filter_Boolean rest
  | None :: rest => filter_Boolean rest
  end.

(** A [Set] of objects, in insertion order.  Membership is SameValueZero,
    which for objects is identity. *)
Definition Set_has {A} (set : list (Obj A)) (o : Obj A) : bool :=
  existsb (fun o' => Nat.eqb (ref o') (ref o)) set.

Definition Set_add {A} (set : list (Obj A)) (o : Obj A) : list (Obj A) :=
  if Set_has set o then set else set ++ [o].

(** [new Set(iterable)]. *)
Definition new_Set {A} (iterable : list (Obj A)) : list (Obj A) :=
  fold_left Set_add iterable [].

End Js.

(* ================================================================== *)
(** * [src/index.js] *)
(* ================================================================== *)

Module Index.

(** A status object of the combined-status feed (or one made by
    [checkRunToStatus]). *)
Record Status := mkStatus {
  state : string;
  context : string;
  target_url : option string
}.

Definition stateBySeverity : list string :=
  [ "neutral"; "success"; "pending"; "cancelled"; "timed_out";
    "action_required"; "failure"; "error" ].

Definition colorize (useColor : bool) (s : string) (code : nat) : string :=
  if useColor
  then Js.ESC ++ "[" ++ Js.toString code ++ "m" ++ s ++ Js.ESC ++ "[39m"
  else s.

Definition getStateMarker (state : string) (useColor : bool) : string :=
  if JsString.eqb state "success" then colorize useColor "✔︎" 32
  else if JsString.eqb state "action_required"
       || JsString.eqb state "cancelled"
       || JsString.eqb state "error"
       || JsString.eqb state "failure"
       || JsString.eqb state "timed_out" then colorize useColor "✖︎" 31
  else if JsString.eqb state "neutral" then colorize useColor "◦" 30
  else if JsString.eqb state "pending" then colorize useColor "●" 33
  else "".

Definition formatStatus (status : Status) (contextWidth : nat) (useColor : bool)
  : string :=
  let stateMarker := getStateMarker (state status) useColor in
  let context := Js.padEnd (context status) contextWidth in
  let targetUrl :=
    match target_url status with
    | Some u => if Js.truthy (Some u) then Js.TAB ++ u else ""
    | None => ""
    end in
  stateMarker ++ Js.TAB ++ context ++ targetUrl.

(** The constant [contextWidth] of [formatStatuses]. *)
Definition contextWidth (statuses : list Status) : nat :=
  if negb (existsb (fun status => Js.truthy (target_url status)) statuses)
  then 0
  else fold_left
         (fun max status => Nat.max max (JsString.length (context status)))
         statuses 0.

Definition formatStatuses (statuses : list Status) (useColor : bool) : string :=
  Js.join Js.LF
    (map (fun status => formatStatus status (contextWidth statuses) useColor)
       statuses).

Definition getState (statuses : list Status) : string :=
  let bestSeverity :=
    fold_left
      (fun maxSeverity status =>
         let severity := Js.indexOf stateBySeverity (state status) in
         Z.max severity maxSeverity)
      statuses (-1)%Z in
  Js.or_else (Js.get stateBySeverity bestSeverity) "".

Definition stateToExitCode (state : string) : Z :=
  if JsString.eqb state "neutral" || JsString.eqb state "success" then 0
  else if JsString.eqb state "action_required"
       || JsString.eqb state "cancelled"
       || JsString.eqb state "error"
       || JsString.eqb state "failure"
       || JsString.eqb state "timed_out" then 1
  else if JsString.eqb state "pending" then 2
  else 3.

(** A check run of the Checks API, as far as [checkRunToStatus] reads it.
    [conclusion] is read of a completed run only, for which the API gives a
    string. *)
Record CheckRun := mkCheckRun {
  status : string;
  conclusion : string;
  name : string;
  html_url : option string
}.

Definition checkRunToStatus (checkRun : CheckRun) : Status :=
  {| state :=
       if JsString.eqb (status checkRun) "completed"
       then conclusion checkRun
       else "pending";
     context := name checkRun;
     target_url := html_url checkRun |}.

(** [Promise.all] of two promises: both values, or the error of the one
    that rejects first. *)
Definition Promise_all2 {A B} (first : Js.completion A)
  (second : Js.completion B) (firstRejectsFirst : bool)
  : Js.completion (A * B) :=
  match first, second with
  | Js.Normal a, Js.Normal b => Js.Normal (a, b)
  | Js.Throw e, Js.Normal _ => Js.Throw e
  | Js.Normal _, Js.Throw e => Js.Throw e
  | Js.Throw e1, Js.Throw e2 => Js.Throw (if firstRejectsFirst then e1 else e2)
  end.

Section GithubCiStatus.

(** The type of [options.wait], which is only handed on. *)
Variable Wait : Type.

(** The options [githubCiStatus] reads; [isTTY] is the property of
    [options.stdout]. *)
Record Options := mkOptions {
  auth : option string;
  wait : option Wait;
  verbosity : option Z;
  useColor : option bool;
  isTTY : bool
}.

(** [statusOptions]; [debug] tells whether the callback is set.  What the
    callback writes goes to [options.stderr], which is left out here. *)
Record StatusOptions := mkStatusOptions {
  status_auth : option string;
  status_wait : option Wait;
  debug : bool
}.

(** Modelled from the spec: [fetchCiStatus] of [lib/fetch-ci-status.js],
    whose source is missing.  It rejects, or resolves to the statuses of the
    combined status and the check runs of the checks list. *)
Variable fetchCiStatus :
  string -> string -> string -> StatusOptions ->
  Js.completion (list Status * list CheckRun).

(** [githubCiStatus], given what [getProjectName()] and [resolveCommit(ref)]
    settle to and which of them rejects first.  It returns what it writes to
    [options.stdout], and the exit code it resolves to or the error it
    rejects with. *)
Definition githubCiStatus (projectName : Js.completion (string * string))
  (commit : Js.completion string) (projectRejectsFirst : bool)
  (options : Options) : list string * Js.completion Z :=
  match Promise_all2 projectName commit projectRejectsFirst with
  | Js.Throw e => ([], Js.Throw e)
  | Js.Normal ((owner, repo), sha) =>
      let statusOptions :=
        {| status_auth := auth options;
           status_wait := wait options;
           debug := match verbosity options with
                    | Some v => (v >? 1)%Z
                    | None => false
                    end |} in
      match fetchCiStatus owner repo sha statusOptions with
      | Js.Throw e => ([], Js.Throw e)
      | Js.Normal (combinedStatuses, check_runs) =>
          let statuses :=
            (combinedStatuses ++ map checkRunToStatus check_runs)%list in
          let state := getState statuses in
          let written :=
            match verbosity options with
            | Some v =>
                if (v >=? 0)%Z then
                  let useColor :=
                    match useColor options with
                    | Some false => false
                    | Some true => true
                    | None => isTTY options
                    end in
                  let formatted :=
                    if (v =? 0)%Z then state
                    else formatStatuses statuses useColor in
                  [Js.or_else (Some formatted) "no status" ++ Js.LF]
                else []
            | None => []
            end in
          (written, Js.Normal (stateToExitCode state))
      end
  end.

End GithubCiStatus.

Arguments mkOptions {Wait} auth wait verbosity useColor isTTY.
Arguments auth {Wait} o.
Arguments wait {Wait} o.
Arguments verbosity {Wait} o.
Arguments useColor {Wait} o.
Arguments isTTY {Wait} o.
Arguments mkStatusOptions {Wait} status_auth status_wait debug.
Arguments status_auth {Wait} s.
Arguments status_wait {Wait} s.
Arguments debug {Wait} s.
Arguments githubCiStatus {Wait} fetchCiStatus projectName commit
  projectRejectsFirst options.

End Index.

(* ================================================================== *)
(** * [src/lib/github-utils.js] *)
(* ================================================================== *)

Module GithubUtils.

(** The configuration object returned by [getConfig]: its properties, in
    the order [Object.entries] enumerates them. *)
Definition Config := list (string * string).

(** [config[key]]. *)
Fixpoint config_get (config : Config) (key : string) : option string :=
  match config with
  | [] => None
  | (k, v) :: rest => if JsString.eqb k key then Some v else config_get rest key
  end.

(** An element of [remotes]. *)
Record Remote := mkRemote { name : string; isPush : bool; url : string }.

(** What [parseGitUrl] returns: the two properties of the URL object that
    are read here. *)
Record URL := mkURL { hostname : string; pathname : string }.

Definition originNamesInLookupOrder : list string :=
  [ "upstream"; "github"; "origin" ].

(** The regular expression of [getRemoteUrls] is, from left to right: the
    start of the key, the literal [remote.], a greedy run of any code units
    (group 1), a literal dot, [url] optionally preceded by [push] (group 2),
    and the end of the key.  The three definitions below are its matcher. *)

(** [.] of a regular expression matches any code unit but a line
    terminator: line feed, carriage return, and the line and paragraph
    separators U+2028 and U+2029. *)
Definition isLineTerminator (c : N) : bool :=
  N.eqb c 10 || N.eqb c 13 || N.eqb c 0x2028 || N.eqb c 0x2029.

(** A literal at the start of [s]: what follows it, if [s] starts with
    it. *)
Fixpoint match_literal (literal s : string) : option string :=
  match literal with
  | EmptyString => Some s
  | String a literal' =>
      match s with
      | EmptyString => None
      | String b s' => if N.eqb a b then match_literal literal' s' else None
      end
  end.

(** The expression after its literal prefix, on the rest of the key.  The
    run is greedy: every longer group 1 is tried before the group is ended
    at the current position, where what remains must be a dot and group 2.
    Returns the two groups. *)
Fixpoint match_name_url (rest : string) : option (string * string) :=
  let here :=
    if JsString.eqb rest ".pushurl" then Some ("", "pushurl")
    else if JsString.eqb rest ".url" then Some ("", "url")
    else None in
  match rest with
  | EmptyString => here
  | String c rest' =>
      match (if isLineTerminator c then None else match_name_url rest') with
      | Some (group1, group2) => Some (String c group1, group2)
      | None => here
      end
  end.

(** [regexp.exec(key)]: the two groups of a match, or [None] for [null]. *)
Definition regexp_exec (key : string) : option (string * string) :=
  match match_literal "remote." key with
  | Some rest => match_name_url rest
  | None => None
  end.

(** The callback of the first [map] in [getRemoteUrls]. *)
Definition toRemote (entry : string * string) : option Remote :=
  let (key, value) := entry in
  match regexp_exec key with
  | Some (group1, group2) =>
      Some {| name := group1;
              isPush := JsString.eqb group2 "pushurl";
              url := value |}
  | None => None
  end.

(** The comparator passed to [remotes.sort]. *)
Definition compareRemotes (branchRemote : option string) (remote1 remote2 : Remote)
  : Js.completion Z :=
  let name1 := name remote1 in
  let name2 := name remote2 in
  let isBranch1 := Js.strict_eq name1 branchRemote in
  let isBranch2 := Js.strict_eq name2 branchRemote in
  if negb (Bool.eqb isBranch1 isBranch2) then
    Js.Normal (if isBranch1 then -1 else 1)%Z
  else
    let order1 := Js.indexOf originNamesInLookupOrder name1 in
    let order2 := Js.indexOf originNamesInLookupOrder name2 in
    if negb (order1 =? order2)%Z then
      Js.Normal (if (order1 =? -1)%Z then 1
                 else if (order2 =? -1)%Z then -1
                 else order1 - order2)%Z
    else if negb (JsString.eqb name1 name2) then
      Js.Normal (if Js.lt name1 name2 then -1 else 1)%Z
    else if negb (Bool.eqb (isPush remote1) (isPush remote2)) then
      Js.Normal (if isPush remote1 then -1 else 1)%Z
    else
      Js.Throw (Js.new_Error
        ("Duplicate config 'remote." ++ name1 ++ "."
           ++ (if isPush remote1 then "push" else "") ++ "url'")).

(** [remotes] before and after the sort. *)
Definition extractRemotes (config : Config) : list Remote :=
  Js.filter_Boolean (map toRemote config).

Definition sortedRemotes (config : Config) (branchRemote : option string)
  : Js.completion (list Remote) :=
  Js.sort (compareRemotes branchRemote) (extractRemotes config).

Definition getRemoteUrls (config : Config) (branchRemote : option string)
  : Js.completion (list string) :=
  Js.bind (sortedRemotes config branchRemote)
    (fun remotes => Js.Normal (map url remotes)).

Section WithEnvironment.

(** Modelled from the spec: [parseGitUrl] of [lib/git-utils.js], whose
    source is missing.  It either throws or returns a freshly allocated URL
    object; the function below gives the content of that object, and
    [parseGitUrl_alloc] places it on the heap. *)
Variable parseGitUrl : string -> Js.completion URL.

(** [process.env.GITHUB_HOST], read once when the module is loaded. *)
Variable gitHubHostEnv : option string.

Definition parseGitUrl_alloc (remoteUrl : string) (heap : Js.Ref)
  : Js.completion (Js.Obj URL) * Js.Ref :=
  match parseGitUrl remoteUrl with
  | Js.Normal u => (Js.Normal (Js.mkObj heap u), S heap)
  | Js.Throw e => (Js.Throw e, heap)
  end.

(** The condition of the [if] in [getGitHubUrls]. *)
Definition isGitHubHost (hostname : string) : bool :=
  JsString.eqb hostname "github.com"
  || Js.strict_eq hostname gitHubHostEnv
  || Js.endsWith hostname ".github.com".

(** The callback of the [map] in [getGitHubUrls]. *)
Definition parseGitHubUrl (remoteUrl : string) (heap : Js.Ref)
  : option (Js.Obj URL) * Js.Ref :=
  match parseGitUrl_alloc remoteUrl heap with
  | (Js.Normal parsed, heap') =>
      if isGitHubHost (hostname (Js.value parsed))
      then (Some parsed, heap')
      else (None, heap')
  | (Js.Throw err, heap') => (None, heap')
  end.

(** [gitHubUrls], the array handed to [new Set]. *)
Definition gitHubUrlsArray (remoteUrls : list string) (heap : Js.Ref)
  : list (Js.Obj URL) * Js.Ref :=
  let (parsed, heap') := Js.map_alloc parseGitHubUrl remoteUrls heap in
  (Js.filter_Boolean parsed, heap').

Definition getGitHubUrls (config : Config) (branchRemote : option string)
  (heap : Js.Ref) : Js.completion (list (Js.Obj URL) * Js.Ref) :=
  Js.bind (getRemoteUrls config branchRemote) (fun remoteUrls =>
    let (gitHubUrls, heap') := gitHubUrlsArray remoteUrls heap in
    Js.Normal (Js.new_Set gitHubUrls, heap')).

(** The body of the [for] loop of [getProjectName] for one URL: the value
    returned, or [None] when the URL is skipped. *)
Definition projectOfUrl (remoteUrl : URL) : option (string * string) :=
  match Js.split Js.slash (pathname remoteUrl) with
  | [part0; part1; part2] =>
      if negb (JsString.eqb part0 "")
         || JsString.eqb part1 ""
         || JsString.eqb part2 ""
      then None
      else
        let repo :=
          if Js.endsWith part2 ".git" then Js.slice_0_neg part2 4 else part2 in
        if JsString.eqb repo "" then None else Some (part1, repo)
  | _ => None
  end.

(** The [for] loop of [getProjectName]. *)
Fixpoint firstProject (remoteUrls : list (Js.Obj URL)) : option (string * string) :=
  match remoteUrls with
  | [] => None
  | remoteUrl :: rest =>
      match projectOfUrl (Js.value remoteUrl) with
      | Some project => Some project
      | None => firstProject rest
      end
  end.

(** [getProjectName], given what [tryGetBranch] and [getConfig] resolved
    to. *)
Definition getProjectName (branch : option string) (config : Config)
  (heap : Js.Ref) : Js.completion (string * string) :=
  let branchRemote :=
    match branch with
    | Some b =>
        if JsString.eqb b "" then Some b
        else config_get config ("branch." ++ b ++ ".remote")
    | None => None
    end in
  Js.bind (getGitHubUrls config branchRemote heap) (fun '(remoteUrls, _) =>
    match firstProject remoteUrls with
    | Some project => Js.Normal project
    | None =>
        Js.Throw (Js.new_Error
          ("Unable to determine GitHub project name: "
             ++ "No GitHub remote URLs recognized."))
    end).

End WithEnvironment.

End GithubUtils.

(* ================================================================== *)
(** * The vocabulary of the specification *)
(* ================================================================== *)

Module SortSpec.

(** What a comparator may answer on a pair, for an order [before] that it
    decides and a relation [same] on whose pairs it throws. *)
Section Outcome.
Context {A : Type}.
Variables (before same : A -> A -> Prop) (raised : A -> Js.Error -> Prop).

Inductive outcome (x y : A) : Js.completion Z -> Prop :=
| outcome_before z : (z < 0)%Z -> before x y -> outcome x y (Js.Normal z)
| outcome_after z : (z > 0)%Z -> before y x -> outcome x y (Js.Normal z)
| outcome_throw e : same x y -> raised x e -> outcome x y (Js.Throw e).

End Outcome.

End SortSpec.

Module IndexSpec.
Import Index.

(** The scale as the specification words it, lowest first. *)
Inductive Severity : Set :=
| neutral | success | pending | cancelled
| timed_out | action_required | failure | error.

Definition rank (v : Severity) : nat :=
  match v with
  | neutral => 0 | success => 1 | pending => 2 | cancelled => 3
  | timed_out => 4 | action_required => 5 | failure => 6 | error => 7
  end.

Definition symbol (v : Severity) : string :=
  match v with
  | neutral => "neutral" | success => "success" | pending => "pending"
  | cancelled => "cancelled" | timed_out => "timed_out"
  | action_required => "action_required" | failure => "failure"
  | error => "error"
  end.

(** A state string is on the scale when it is one of the eight symbols. *)
Definition onScale (s : string) : bool :=
  existsb (JsString.eqb s) stateBySeverity.

(** The reduction inside [getState], from an arbitrary start value. *)
Definition bestSeverityFrom (statuses : list Status) (start : Z) : Z :=
  fold_left
    (fun maxSeverity status =>
       Z.max (Js.indexOf stateBySeverity (state status)) maxSeverity)
    statuses start.

(** A record carries a target URL when the property holds a non-empty
    string. *)
Definition carriesTargetUrl (status : Status) : Prop :=
  exists u, target_url status = Some u /\ u <> "".

(** The line of one record, as the specification describes it. *)
Definition renderedLine (width : nat) (useColor : bool) (status : Status)
  : string :=
  getStateMarker (state status) useColor
  ++ Js.TAB
  ++ context status ++ Js.spaces (width - JsString.length (context status))
  ++ match target_url status with
     | Some u => if JsString.eqb u "" then "" else Js.TAB ++ u
     | None => ""
     end.

(** The highest index on [stateBySeverity] of the states of the records,
    [-1] when no state is on it. *)
Fixpoint severityMax (statuses : list Status) : Z :=
  match statuses with
  | [] => (-1)%Z
  | status :: rest =>
      Z.max (Js.indexOf stateBySeverity (state status)) (severityMax rest)
  end.

(** The states of the failing family. *)
Definition failingStates : list string :=
  [ "cancelled"; "timed_out"; "action_required"; "failure"; "error" ].

(** Some record has one of the given states. *)
Definition someState (statuses : list Status) (states : list string) : Prop :=
  exists status, In status statuses /\ In (state status) states.

End IndexSpec.

Module GithubUtilsSpec.
Import GithubUtils.

(** [withoutDotGit last repo]: [repo] is [last] with one trailing [.git]
    stripped, if it has one. *)
Inductive withoutDotGit (last : string) : string -> Prop :=
| stripped repo : last = repo ++ ".git" -> withoutDotGit last repo
| untouched : (forall pre, last <> pre ++ ".git") -> withoutDotGit last last.

(** The path splits on [/] into exactly three segments, the first empty,
    the second the owner, and the third the repository name once one
    trailing [.git] is stripped; owner and repository are not empty. *)
Definition hasProjectShape (path owner repo : string) : Prop :=
  exists last,
    Js.split Js.slash path = [""; owner; last] /\
    owner <> "" /\ withoutDotGit last repo /\ repo <> "".

Section Candidates.
Variable parseGitUrl : string -> Js.completion URL.
Variable gitHubHostEnv : option string.

(** The plain filtered list: the content of every remote URL that parses
    and passes the host filter, in the order of the remote URLs. *)
Fixpoint keptUrls (remoteUrls : list string) : list URL :=
  match remoteUrls with
  | [] => []
  | remoteUrl :: rest =>
      match parseGitUrl remoteUrl with
      | Js.Normal parsed =>
          if isGitHubHost gitHubHostEnv (hostname parsed)
          then parsed :: keptUrls rest
          else keptUrls rest
      | Js.Throw _ => keptUrls rest
      end
  end.

End Candidates.

(** Lexicographic order on names, by code unit. *)
Inductive lexBefore : string -> string -> Prop :=
| lex_shorter c s : lexBefore "" (String c s)
| lex_head c1 c2 s1 s2 :
    (c1 < c2)%N ->
    lexBefore (String c1 s1) (String c2 s2)
| lex_tail c s1 s2 : lexBefore s1 s2 -> lexBefore (String c s1) (String c s2).

(** The position of a name in the preference list [upstream], [github],
    [origin]; unlisted names come after all listed ones. *)
Definition preference (n : string) : nat :=
  if JsString.eqb n "upstream" then 0
  else if JsString.eqb n "github" then 1
  else if JsString.eqb n "origin" then 2
  else 3.

(** The strict order of the specification: the remote of the current branch
    first; then by preference; then by name, ascending; and for one name the
    push URL before the fetch URL. *)
Inductive precedes (branchRemote : option string) (r1 r2 : Remote) : Prop :=
| branch_first :
    branchRemote = Some (name r1) -> branchRemote <> Some (name r2) ->
    precedes branchRemote r1 r2
| preferred_first :
    (branchRemote = Some (name r1) <-> branchRemote = Some (name r2)) ->
    preference (name r1) < preference (name r2) ->
    precedes branchRemote r1 r2
| name_ascending :
    (branchRemote = Some (name r1) <-> branchRemote = Some (name r2)) ->
    preference (name r1) = preference (name r2) ->
    lexBefore (name r1) (name r2) ->
    precedes branchRemote r1 r2
| push_first :
    name r1 = name r2 -> isPush r1 = true -> isPush r2 = false ->
    precedes branchRemote r1 r2.

(** Two entries collide when they agree on name and on being a push URL. *)
Definition collide (r1 r2 : Remote) : Prop :=
  name r1 = name r2 /\ isPush r1 = isPush r2.

(** The error of the last statement of the comparator, for entry [r]. *)
Definition duplicateConfigError (r : Remote) (e : Js.Error) : Prop :=
  e = Js.new_Error
        ("Duplicate config 'remote." ++ name r ++ "."
           ++ (if isPush r then "push" else "") ++ "url'").

(** Two entries of the list, at different positions, collide. *)
Definition twoCollide (remotes : list Remote) : Prop :=
  exists front r1 between r2 back,
    remotes = (front ++ r1 :: between ++ r2 :: back)%list /\ collide r1 r2.

(** The remotes of the test repository, with [remote2] the remote of the
    current branch. *)
Definition testConfig : Config :=
  [ ("core.bare", "false");
    ("remote.remote1.url", "git@github.com:kevinoid/hub-ci-status.git");
    ("remote.aremote.url", "https://github.com/zzz/hub-ci-status.git");
    ("remote.origin.url", "https://github.com/origin/hub-ci-status.git");
    ("remote.github.url", "https://github.com/github/hub-ci-status.git");
    ("remote.upstream.url", "https://github.com/upstream/hub-ci-status.git");
    ("remote.remote2.url", "https://github.com/branch/hub-ci-status.git");
    ("branch.main.remote", "remote2");
    ("remote.remote2.pushurl",
     "https://github.com/branchpush/hub-ci-status.git") ].

(** A stand-in for [parseGitUrl] on the kinds of URL the tests of the
    repository configure: [https://host/path], and the short form
    [git@github.com:path]; anything else is taken not to parse. *)
Definition parseTestUrl (remoteUrl : string) : Js.completion URL :=
  match match_literal "https://" remoteUrl with
  | Some rest =>
      match Js.split Js.slash rest with
      | host :: _ =>
          Js.Normal
            (mkURL host
               (JsString.drop (JsString.length host) rest))
      | [] => Js.Throw (Js.new_Error "Invalid URL")
      end
  | None =>
      match match_literal "git@github.com:" remoteUrl with
      | Some path => Js.Normal (mkURL "github.com" ("/" ++ path))
      | None => Js.Throw (Js.new_Error "Invalid URL")
      end
  end.

(** [s] has a line terminator among its code units. *)
Fixpoint hasLineTerminator (s : string) : bool :=
  match s with
  | EmptyString => false
  | String c s' => isLineTerminator c || hasLineTerminator s'
  end.

(** [s] has the code unit [c]. *)
Fixpoint hasChar (c : N) (s : string) : bool :=
  match s with
  | EmptyString => false
  | String c' s' => N.eqb c' c || hasChar c s'
  end.

(** The remote configured for the current branch, as [getProjectName]
    looks it up. *)
Definition branchRemoteOf (branch : option string) (config : Config)
  : option string :=
  match branch with
  | Some b =>
      if JsString.eqb b "" then Some b
      else config_get config ("branch." ++ b ++ ".remote")
  | None => None
  end.

(** The error of the last statement of [getProjectName]. *)
Definition noRemoteRecognized : Js.Error :=
  Js.new_Error
    "Unable to determine GitHub project name: No GitHub remote URLs recognized.".

Section Resolution.
Variable parseGitUrl : string -> Js.completion URL.
Variable gitHubHostEnv : option string.

(** The project a remote URL stands for: the URL parses, its host passes
    the filter, and its path has the shape of a project. *)
Definition projectOfRemoteUrl (remoteUrl : string) : option (string * string) :=
  match parseGitUrl remoteUrl with
  | Js.Normal parsed =>
      if isGitHubHost gitHubHostEnv (hostname parsed)
      then projectOfUrl parsed
      else None
  | Js.Throw _ => None
  end.

(** The project of the first remote URL that stands for one. *)
Fixpoint firstProjectOfUrls (remoteUrls : list string)
  : option (string * string) :=
  match remoteUrls with
  | [] => None
  | remoteUrl :: rest =>
      match projectOfRemoteUrl remoteUrl with
      | Some project => Some project
      | None => firstProjectOfUrls rest
      end
  end.

End Resolution.

End GithubUtilsSpec.

(* ================================================================== *)
(** * Facts about strings *)
(* ================================================================== *)

Module JsStringFacts.

Lemma eqb_refl (s : string) : JsString.eqb s s = true.
Proof.
  induction s as [| c s IH]; simpl; [reflexivity |].
  rewrite N.eqb_refl, IH. reflexivity.
Qed.

Lemma eqb_eq (s1 s2 : string) : JsString.eqb s1 s2 = true <-> s1 = s2.
Proof.
  split; [| intros ->; apply eqb_refl].
  revert s2. induction s1 as [| c1 s1 IH]; intros [| c2 s2]; simpl;
    try discriminate; [reflexivity |].
  intros H. apply andb_true_iff in H. destruct H as [Hc Hs].
  apply N.eqb_eq in Hc. rewrite Hc, (IH s2 Hs). reflexivity.
Qed.

Lemma eqb_neq (s1 s2 : string) : JsString.eqb s1 s2 = false <-> s1 <> s2.
Proof.
  rewrite <- eqb_eq. destruct (JsString.eqb s1 s2); split; congruence.
Qed.

Lemma eqb_spec (s1 s2 : string) : reflect (s1 = s2) (JsString.eqb s1 s2).
Proof.
  destruct (JsString.eqb s1 s2) eqn:E; constructor.
  - apply eqb_eq, E.
  - apply eqb_neq, E.
Qed.

Lemma eqb_sym (s1 s2 : string) : JsString.eqb s1 s2 = JsString.eqb s2 s1.
Proof.
  destruct (eqb_spec s1 s2) as [-> | H].
  - symmetry. apply eqb_refl.
  - symmetry. apply eqb_neq. congruence.
Qed.

Lemma compare_antisym (s1 s2 : string) :
  JsString.compare s1 s2 = CompOpp (JsString.compare s2 s1).
Proof.
  revert s2. induction s1 as [| c1 s1 IH]; intros [| c2 s2]; simpl;
    try reflexivity.
  rewrite (N.compare_antisym c2 c1). destruct (N.compare c2 c1); simpl;
    [apply IH | reflexivity | reflexivity].
Qed.

Lemma compare_eq (s1 s2 : string) : JsString.compare s1 s2 = Eq -> s1 = s2.
Proof.
  revert s2. induction s1 as [| c1 s1 IH]; intros [| c2 s2]; simpl;
    try discriminate; [reflexivity |].
  destruct (N.compare_spec c1 c2) as [-> | _ | _]; try discriminate.
  intros H. rewrite (IH s2 H). reflexivity.
Qed.

End JsStringFacts.

(* ================================================================== *)
(** * Facts about the built-ins *)
(* ================================================================== *)

Module JsFacts.

Lemma append_assoc (s1 s2 s3 : string) : (s1 ++ s2) ++ s3 = s1 ++ (s2 ++ s3).
Proof. induction s1 as [| c s1 IH]; simpl; [reflexivity | rewrite IH; reflexivity]. Qed.

Lemma append_nil_r (s : string) : s ++ "" = s.
Proof. induction s as [| c s IH]; simpl; [reflexivity | rewrite IH; reflexivity]. Qed.

Lemma length_append (s1 s2 : string) :
  JsString.length (s1 ++ s2) = JsString.length s1 + JsString.length s2.
Proof. induction s1 as [| c s1 IH]; simpl; [reflexivity | rewrite IH; reflexivity]. Qed.

Lemma length_spaces n : JsString.length (Js.spaces n) = n.
Proof. induction n as [| n IH]; simpl; [reflexivity | rewrite IH; reflexivity]. Qed.

Lemma length_padEnd s targetLength :
  JsString.length (Js.padEnd s targetLength)
  = Nat.max (JsString.length s) targetLength.
Proof. unfold Js.padEnd. rewrite length_append, length_spaces. lia. Qed.

Lemma endsWith_unfold (s suffix : string) :
  Js.endsWith s suffix
  = (JsString.eqb s suffix
     || match s with
        | EmptyString => false
        | String _ s' => Js.endsWith s' suffix
        end).
Proof. destruct s; reflexivity. Qed.

(** [endsWith] holds exactly of the strings that are a prefix followed by
    the suffix. *)
Lemma endsWith_spec (s suffix : string) :
  Js.endsWith s suffix = true <-> exists pre, s = pre ++ suffix.
Proof.
  induction s as [| c s IH]; rewrite endsWith_unfold.
  - rewrite orb_false_r, JsStringFacts.eqb_eq. split.
    + intros <-. exists "". reflexivity.
    + intros [pre H]. destruct pre as [| c pre]; simpl in H.
      * exact H.
      * discriminate H.
  - rewrite orb_true_iff, JsStringFacts.eqb_eq, IH. split.
    + intros [<- | [pre ->]].
      * exists "". reflexivity.
      * exists (String c pre). reflexivity.
    + intros [pre H]. destruct pre as [| c' pre]; simpl in H.
      * left. exact H.
      * right. injection H as _ ->. exists pre. reflexivity.
Qed.

(** ** [sort] with a comparator that throws on some pairs

    [before] is the order the comparator decides; [same] relates the pairs
    on which it throws. *)
Section SortFacts.
Context {A : Type} (comparefn : A -> A -> Js.completion Z).
Variables (before same : A -> A -> Prop) (raised : A -> Js.Error -> Prop).

Hypothesis comparefn_outcome :
  forall x y, SortSpec.outcome before same raised x y (comparefn x y).
Hypothesis before_trans : forall x y z, before x y -> before y z -> before x z.
Hypothesis before_not_same : forall x y, before x y -> ~ same x y /\ ~ same y x.

Lemma sort_insert_normal x sorted result :
  Js.sort_insert comparefn x sorted = Js.Normal result ->
  Permutation (x :: sorted) result /\
  (StronglySorted before sorted -> StronglySorted before result).
Proof.
  revert result. induction sorted as [| y rest IH]; intros result H; simpl in H.
  - injection H as <-. split; [apply Permutation_refl |].
    intros _. repeat constructor.
  - destruct (comparefn_outcome x y) as [z Hz Hxy | z Hz Hyx | e _ _];
      simpl in H; [| | discriminate H].
    + destruct (Z.gtb_spec z 0) as [Hgt | _]; [lia |].
      injection H as <-. split; [apply Permutation_refl |].
      intros Hs. constructor; [exact Hs |].
      constructor; [exact Hxy |].
      apply StronglySorted_inv in Hs. destruct Hs as [_ Hall].
      eapply Forall_impl; [| exact Hall].
      intros w Hw. eapply before_trans; eassumption.
    + destruct (Z.gtb_spec z 0) as [_ | Hle]; [| lia].
      destruct (Js.sort_insert comparefn x rest) as [rest' | e] eqn:E;
        simpl in H; [| discriminate H].
      injection H as <-. destruct (IH rest' eq_refl) as [Hperm Hsorted].
      split.
      * eapply Permutation_trans; [apply perm_swap |].
        apply perm_skip, Hperm.
      * intros Hs. apply StronglySorted_inv in Hs. destruct Hs as [Hs Hall].
        constructor; [apply Hsorted, Hs |].
        rewrite Forall_forall in *. intros w Hw.
        apply (Permutation_in _ (Permutation_sym Hperm)) in Hw.
        destruct Hw as [<- | Hw]; [exact Hyx | apply Hall, Hw].
Qed.

Lemma sort_normal array result :
  Js.sort comparefn array = Js.Normal result ->
  Permutation array result /\ StronglySorted before result.
Proof.
  revert result. induction array as [| x rest IH]; intros result H; simpl in H.
  - injection H as <-. split; constructor.
  - destruct (Js.sort comparefn rest) as [rest' | e] eqn:E;
      simpl in H; [| discriminate H].
    destruct (IH rest' eq_refl) as [Hperm Hsorted].
    destruct (sort_insert_normal _ _ _ H) as [Hperm' Hsorted'].
    split; [| apply Hsorted', Hsorted].
    eapply Permutation_trans; [apply perm_skip, Hperm | exact Hperm'].
Qed.

Lemma sort_insert_throw_inv x sorted e :
  Js.sort_insert comparefn x sorted = Js.Throw e ->
  exists y, In y sorted /\ same x y /\ raised x e.
Proof.
  induction sorted as [| y rest IH]; intros H; simpl in H; [discriminate H |].
  destruct (comparefn_outcome x y) as [z Hz Hxy | z Hz Hyx | e' Hsame Hraised];
    simpl in H.
  - destruct (Z.gtb_spec z 0) as [Hgt | _]; [lia | discriminate H].
  - destruct (Z.gtb_spec z 0) as [_ | Hle]; [| lia].
    destruct (Js.sort_insert comparefn x rest) as [rest' | e'] eqn:E;
      simpl in H; [discriminate H |].
    injection H as ->. destruct (IH eq_refl) as [w [Hin Hw]].
    exists w. split; [right; exact Hin | exact Hw].
  - injection H as ->. exists y. split; [left; reflexivity | split; assumption].
Qed.

Lemma sort_insert_throw x sorted y :
  StronglySorted before sorted -> In y sorted -> same x y ->
  exists e, Js.sort_insert comparefn x sorted = Js.Throw e.
Proof.
  induction sorted as [| h rest IH]; intros Hs Hin Hsame; [destruct Hin |].
  apply StronglySorted_inv in Hs. destruct Hs as [Hs Hall]. simpl.
  destruct (comparefn_outcome x h) as [z Hz Hxh | z Hz Hhx | e _ _]; simpl.
  - exfalso. destruct Hin as [-> | Hin].
    + apply (proj1 (before_not_same _ _ Hxh)), Hsame.
    + rewrite Forall_forall in Hall.
      apply (proj1 (before_not_same _ _
                      (before_trans _ _ _ Hxh (Hall y Hin)))), Hsame.
  - destruct (Z.gtb_spec z 0) as [_ | Hle]; [| lia].
    destruct Hin as [-> | Hin].
    + exfalso. apply (proj2 (before_not_same _ _ Hhx)), Hsame.
    + destruct (IH Hs Hin Hsame) as [e ->]. exists e. reflexivity.
  - exists e. reflexivity.
Qed.

End SortFacts.

End JsFacts.

(* ================================================================== *)
(** * Properties of [src/index.js] *)
(* ================================================================== *)

Module IndexProps.
Import Index IndexSpec.

Lemma getState_unfold statuses :
  getState statuses =
  Js.or_else (Js.get stateBySeverity (bestSeverityFrom statuses (-1))) "".
Proof. reflexivity. Qed.

Lemma symbol_inj v w : symbol v = symbol w -> v = w.
Proof. destruct v, w; simpl; intros H; try reflexivity; discriminate H. Qed.

Lemma indexOf_symbol v :
  Js.indexOf stateBySeverity (symbol v) = Z.of_nat (rank v).
Proof. destruct v; reflexivity. Qed.

Lemma get_rank v :
  Js.get stateBySeverity (Z.of_nat (rank v)) = Some (symbol v).
Proof. destruct v; reflexivity. Qed.

Lemma onScale_symbol s : onScale s = true <-> exists v, s = symbol v.
Proof.
  unfold onScale, stateBySeverity. simpl.
  repeat rewrite orb_true_iff. repeat rewrite JsStringFacts.eqb_eq. split.
  - intros H.
    repeat (destruct H as [H | H]); try discriminate H; subst s;
      [ exists neutral | exists success | exists pending | exists cancelled
      | exists timed_out | exists action_required | exists failure
      | exists error ]; reflexivity.
  - intros [v ->]. destruct v; simpl; tauto.
Qed.

(** Off the scale, [indexOf] answers [-1]. *)
Lemma indexOf_from_absent (array : list string) s i :
  existsb (JsString.eqb s) array = false -> Js.indexOf_from i array s = (-1)%Z.
Proof.
  revert i. induction array as [| y rest IH]; intros i H; simpl in *.
  - reflexivity.
  - apply orb_false_iff in H. destruct H as [Hy Hrest].
    rewrite JsStringFacts.eqb_sym, Hy. apply IH, Hrest.
Qed.

Lemma indexOf_off_scale s :
  onScale s = false -> Js.indexOf stateBySeverity s = (-1)%Z.
Proof. apply indexOf_from_absent. Qed.

Lemma indexOf_lower_bound s : (-1 <= Js.indexOf stateBySeverity s)%Z.
Proof.
  destruct (onScale s) eqn:E.
  - apply onScale_symbol in E. destruct E as [v ->].
    rewrite indexOf_symbol. lia.
  - rewrite (indexOf_off_scale _ E). lia.
Qed.

(** ** The reduction computes a maximum *)

Lemma bestSeverityFrom_cons status statuses start :
  bestSeverityFrom (status :: statuses) start =
  bestSeverityFrom statuses
    (Z.max (Js.indexOf stateBySeverity (state status)) start).
Proof. reflexivity. Qed.

Lemma bestSeverityFrom_ge_start statuses :
  forall start, (start <= bestSeverityFrom statuses start)%Z.
Proof.
  induction statuses as [| status rest IH]; intros start.
  - simpl. lia.
  - rewrite bestSeverityFrom_cons.
    specialize (IH (Z.max (Js.indexOf stateBySeverity (state status)) start)).
    lia.
Qed.

Lemma bestSeverityFrom_upper statuses :
  forall start status, In status statuses ->
    (Js.indexOf stateBySeverity (state status)
       <= bestSeverityFrom statuses start)%Z.
Proof.
  induction statuses as [| s0 rest IH]; intros start status Hin.
  - destruct Hin.
  - rewrite bestSeverityFrom_cons. destruct Hin as [-> | Hin].
    + pose proof (bestSeverityFrom_ge_start rest
        (Z.max (Js.indexOf stateBySeverity (state status)) start)).
      lia.
    + apply IH, Hin.
Qed.

Lemma bestSeverityFrom_attained statuses :
  forall start,
    bestSeverityFrom statuses start = start \/
    exists status, In status statuses /\
      bestSeverityFrom statuses start =
      Js.indexOf stateBySeverity (state status).
Proof.
  induction statuses as [| s0 rest IH]; intros start.
  - left. reflexivity.
  - rewrite bestSeverityFrom_cons.
    destruct (IH (Z.max (Js.indexOf stateBySeverity (state s0)) start))
      as [Heq | [status [Hin Heq]]].
    + rewrite Heq.
      destruct (Z.max_spec (Js.indexOf stateBySeverity (state s0)) start)
        as [[_ Hm] | [_ Hm]]; rewrite Hm.
      * left. reflexivity.
      * right. exists s0. split; [left; reflexivity | reflexivity].
    + right. exists status. split; [right; exact Hin | exact Heq].
Qed.

(** Records off the scale leave the reduction unchanged. *)
Lemma bestSeverityFrom_filter statuses :
  forall start, (-1 <= start)%Z ->
    bestSeverityFrom statuses start =
    bestSeverityFrom (filter (fun status => onScale (state status)) statuses)
      start.
Proof.
  induction statuses as [| s0 rest IH]; intros start Hstart.
  - reflexivity.
  - rewrite bestSeverityFrom_cons. simpl filter.
    destruct (onScale (state s0)) eqn:E.
    + rewrite bestSeverityFrom_cons. apply IH. lia.
    + rewrite (indexOf_off_scale _ E).
      replace (Z.max (-1) start) with start by lia.
      apply IH, Hstart.
Qed.

(** ** The overall state *)

(** C2: on a list of records whose states are all on the scale
    [neutral < success < pending < cancelled < timed_out < action_required
    < failure < error], [getState] returns the highest-severity state that
    occurs in the list; on the empty list it returns the empty string. *)
Theorem getState_highest_severity (statuses : list Status) :
  (forall status, In status statuses -> exists v, state status = symbol v) ->
  (statuses = [] -> getState statuses = "") /\
  (statuses <> [] ->
   exists best,
     getState statuses = symbol best /\
     In (symbol best) (map state statuses) /\
     forall v, In (symbol v) (map state statuses) -> rank v <= rank best).
Proof.
  intros Hscale. split.
  - intros ->. reflexivity.
  - intros Hne. rewrite getState_unfold.
    destruct (bestSeverityFrom_attained statuses (-1))
      as [Hstart | [status [Hin Hbest]]].
    + (* the start value survives only if no record raised it *)
      destruct statuses as [| s0 rest]; [contradiction Hne; reflexivity |].
      destruct (Hscale s0 (or_introl eq_refl)) as [v0 Hv0].
      pose proof (bestSeverityFrom_upper (s0 :: rest) (-1) s0
                    (or_introl eq_refl)) as Hup.
      rewrite Hv0, indexOf_symbol, Hstart in Hup. lia.
    + destruct (Hscale status Hin) as [best Hsym].
      exists best. rewrite Hbest, Hsym, indexOf_symbol, get_rank.
      split; [| split].
      * destruct best; reflexivity.
      * rewrite <- Hsym. apply in_map, Hin.
      * intros v Hv. apply in_map_iff in Hv.
        destruct Hv as [status' [Hst' Hin']].
        pose proof (bestSeverityFrom_upper statuses (-1) status' Hin') as Hup.
        rewrite Hst', indexOf_symbol, Hbest, Hsym, indexOf_symbol in Hup. lia.
Qed.

(** The example of the specification, obtained from the theorem: states
    [success], [pending], [failure] give [failure]. *)
Lemma getState_highest_severity_witness :
  getState [ mkStatus "success" "build" None;
             mkStatus "pending" "lint" None;
             mkStatus "failure" "test" (Some "https://ci.example/1") ]
  = "failure".
Proof.
  pose (statuses := [ mkStatus "success" "build" None;
                      mkStatus "pending" "lint" None;
                      mkStatus "failure" "test" (Some "https://ci.example/1") ]).
  assert (Hscale : forall status, In status statuses ->
                     exists v, state status = symbol v).
  { intros status [<- | [<- | [<- | []]]];
      [exists success | exists pending | exists failure]; reflexivity. }
  destruct (getState_highest_severity statuses Hscale) as [_ Hmax].
  destruct Hmax as [best [Hget [Hin Hle]]]; [discriminate |].
  fold statuses. rewrite Hget.
  specialize (Hle failure). simpl in Hle, Hin.
  assert (Hr : rank failure <= rank best) by (apply Hle; tauto).
  destruct best; simpl in Hr; try lia;
    destruct Hin as [H | [H | [H | []]]]; try discriminate H; reflexivity.
Defined.

(** C10: records whose state is not on the scale never influence the
    overall state: [getState] agrees with [getState] of the sublist of the
    records on the scale; a list with no record on the scale gives the empty
    string; and states [bogus], [success] give [success]. *)
Theorem getState_ignores_unrecognized (statuses : list Status) :
  getState statuses =
    getState (filter (fun status => onScale (state status)) statuses) /\
  (Forall (fun status => onScale (state status) = false) statuses ->
   getState statuses = "") /\
  (forall c1 u1 c2 u2,
     getState [mkStatus "bogus" c1 u1; mkStatus "success" c2 u2] = "success").
Proof.
  assert (Hfilter : getState statuses =
    getState (filter (fun status => onScale (state status)) statuses)).
  { rewrite !getState_unfold.
    rewrite <- bestSeverityFrom_filter by lia. reflexivity. }
  split; [exact Hfilter | split].
  - intros Hoff. rewrite Hfilter.
    replace (filter (fun status => onScale (state status)) statuses)
      with (@nil Status); [reflexivity |].
    clear Hfilter. induction Hoff as [| s0 rest H0 _ IH]; simpl.
    + reflexivity.
    + rewrite H0. exact IH.
  - intros. reflexivity.
Qed.

(** ** The exit code *)

(** One case of a [switch] on a state: the goal is settled when [state] is
    the literal, and the analysis goes on when it is not. *)
Ltac case_state state literal :=
  destruct (JsStringFacts.eqb_spec state literal) as [-> | ?];
  [simpl; intuition (discriminate || auto) |].

(** C4: [stateToExitCode] gives 0 exactly for [neutral] and [success], 1
    exactly for [cancelled], [timed_out], [action_required], [failure] and
    [error], 2 exactly for [pending], and 3 exactly for every other string,
    the empty one included. *)
Theorem stateToExitCode_mapping (state : string) :
  (stateToExitCode state = 0%Z <-> In state ["neutral"; "success"]) /\
  (stateToExitCode state = 1%Z <->
     In state ["cancelled"; "timed_out"; "action_required"; "failure";
               "error"]) /\
  (stateToExitCode state = 2%Z <-> state = "pending") /\
  (stateToExitCode state = 3%Z <-> ~ In state stateBySeverity) /\
  stateToExitCode "" = 3%Z.
Proof.
  unfold stateToExitCode, stateBySeverity. simpl In.
  case_state state "neutral". case_state state "success".
  case_state state "action_required". case_state state "cancelled".
  case_state state "error". case_state state "failure".
  case_state state "timed_out". case_state state "pending".
  simpl. intuition (discriminate || congruence || auto).
Qed.

(** ** The formatted breakdown *)

Lemma truthy_carries status :
  Js.truthy (target_url status) = true <-> carriesTargetUrl status.
Proof.
  unfold carriesTargetUrl, Js.truthy. destruct (target_url status) as [u |].
  - rewrite negb_true_iff, JsStringFacts.eqb_neq. split.
    + intros H. exists u. split; [reflexivity | exact H].
    + intros [u' [Hu Hne]]. injection Hu as ->. exact Hne.
  - split; [discriminate | intros [u [Hu _]]; discriminate Hu].
Qed.

Lemma fold_max_list_max statuses :
  forall start,
    fold_left (fun max status => Nat.max max (JsString.length (context status)))
      statuses start
    = Nat.max start
        (list_max (map (fun status => JsString.length (context status)) statuses)).
Proof.
  induction statuses as [| s0 rest IH]; intros start; simpl.
  - lia.
  - rewrite IH. lia.
Qed.

Lemma formatStatus_renderedLine status width useColor :
  formatStatus status width useColor = renderedLine width useColor status.
Proof.
  unfold formatStatus, renderedLine, Js.padEnd, Js.truthy.
  rewrite JsFacts.append_assoc.
  destruct (target_url status) as [u |]; [| reflexivity].
  destruct (JsString.eqb u ""); reflexivity.
Qed.

(** C8: the context column of [formatStatuses] is 0 wide when no record
    carries a target URL, and as wide as the longest context string of all
    records otherwise; each record is rendered as its state marker, a tab,
    its context filled up to that width and, only when it carries a target
    URL, a tab and the URL; the lines are joined with newlines. *)
Theorem formatStatuses_layout (statuses : list Status) (useColor : bool) :
  ((forall status, In status statuses -> ~ carriesTargetUrl status) ->
   contextWidth statuses = 0) /\
  ((exists status, In status statuses /\ carriesTargetUrl status) ->
   contextWidth statuses
   = list_max (map (fun status => JsString.length (context status)) statuses) /\
   forall status, In status statuses ->
     JsString.length (Js.padEnd (context status) (contextWidth statuses))
     = contextWidth statuses) /\
  formatStatuses statuses useColor
  = JsString.concat Js.LF
      (map (renderedLine (contextWidth statuses) useColor) statuses) /\
  (forall status width,
     ~ carriesTargetUrl status ->
     renderedLine width useColor status
     = getStateMarker (state status) useColor ++ Js.TAB
       ++ Js.padEnd (context status) width) /\
  (forall status width u,
     target_url status = Some u -> u <> "" ->
     renderedLine width useColor status
     = getStateMarker (state status) useColor ++ Js.TAB
       ++ Js.padEnd (context status) width ++ Js.TAB ++ u).
Proof.
  split; [| split; [| split; [| split]]].
  - intros Hnone. unfold contextWidth.
    destruct (existsb _ statuses) eqn:E; [| reflexivity].
    apply existsb_exists in E. destruct E as [status [Hin Ht]].
    apply truthy_carries in Ht. destruct (Hnone status Hin Ht).
  - intros [status [Hin Hc]].
    assert (Hw : contextWidth statuses
      = list_max (map (fun status => JsString.length (context status)) statuses)).
    { unfold contextWidth.
      replace (existsb _ statuses) with true.
      - simpl negb. cbv iota. rewrite fold_max_list_max. lia.
      - symmetry. apply existsb_exists. exists status.
        split; [exact Hin | apply truthy_carries, Hc]. }
    split; [exact Hw |].
    intros status' Hin'. rewrite JsFacts.length_padEnd, Hw.
    assert (Hle : JsString.length (context status')
      <= list_max (map (fun status => JsString.length (context status)) statuses)).
    { pose proof (proj1 (list_max_le
        (map (fun status => JsString.length (context status)) statuses)
        (list_max (map (fun status => JsString.length (context status)) statuses)))
        (le_n _)) as Hall.
      rewrite Forall_forall in Hall. apply Hall.
      apply in_map_iff. exists status'. split; [reflexivity | exact Hin']. }
    lia.
  - unfold formatStatuses, Js.join. f_equal.
    apply map_ext. intros status. apply formatStatus_renderedLine.
  - intros status width Hno. unfold renderedLine, Js.padEnd.
    destruct (target_url status) as [u |] eqn:Hu.
    + destruct (JsStringFacts.eqb_spec u "") as [-> | Hne].
      * rewrite JsFacts.append_nil_r. reflexivity.
      * destruct Hno. exists u. split; [exact Hu | exact Hne].
    + rewrite JsFacts.append_nil_r. reflexivity.
  - intros status width u Hu Hne. unfold renderedLine, Js.padEnd.
    rewrite Hu. apply JsStringFacts.eqb_neq in Hne. rewrite Hne.
    rewrite JsFacts.append_assoc. reflexivity.
Qed.

(** ** The examples of the specification *)

Example exit_code_of_failure :
  stateToExitCode
    (getState [ mkStatus "success" "build" None;
                mkStatus "pending" "lint" None;
                mkStatus "failure" "test" None ]) = 1%Z.
Proof. reflexivity. Qed.

Example exit_code_of_no_status : stateToExitCode (getState []) = 3%Z.
Proof. reflexivity. Qed.

Example formatStatuses_aligned :
  formatStatuses
    [ mkStatus "success" "ci" (Some "https://ci.example/1");
      mkStatus "skipped" "deploy" None ] false
  = "✔︎" ++ Js.TAB ++ "ci    " ++ Js.TAB ++ "https://ci.example/1"
    ++ Js.LF ++ Js.TAB ++ "deploy".
Proof. reflexivity. Qed.

Example formatStatuses_without_urls :
  formatStatuses
    [ mkStatus "pending" "ci" None; mkStatus "neutral" "deploy" (Some "") ] false
  = "●" ++ Js.TAB ++ "ci" ++ Js.LF ++ "◦" ++ Js.TAB ++ "deploy".
Proof. reflexivity. Qed.

(** ** Strings beyond ASCII *)

(** The literals are UTF-16: the marker of success is two code units,
    [café] is four and [ünïcödé] seven, and a character outside the basic
    plane is a surrogate pair. *)
Example literal_code_units :
  "✔︎" = String 0x2714 (String 0xFE0E "") /\
  JsString.length "café" = 4 /\
  JsString.length "ünïcödé" = 7 /\
  "😀" = String 0xD83D (String 0xDE00 "").
Proof. repeat split; reflexivity. Qed.

Example formatStatuses_pads_by_code_units :
  formatStatuses
    [ mkStatus "success" "café" (Some "https://ci.example/1");
      mkStatus "success" "build" None ] false
  = "✔︎" ++ Js.TAB ++ "café " ++ Js.TAB ++ "https://ci.example/1"
    ++ Js.LF ++ "✔︎" ++ Js.TAB ++ "build".
Proof. reflexivity. Qed.

Example contextWidth_counts_code_units :
  contextWidth
    [ mkStatus "success" "ünïcödé" (Some "https://ci.example/1");
      mkStatus "success" "ci" None ] = 7.
Proof. reflexivity. Qed.

(** ** The overall state of any list of records *)

Lemma bestSeverityFrom_severityMax statuses :
  forall start, (-1 <= start)%Z ->
    bestSeverityFrom statuses start = Z.max start (severityMax statuses).
Proof.
  induction statuses as [| s0 rest IH]; intros start Hstart;
    simpl severityMax.
  - simpl. lia.
  - rewrite bestSeverityFrom_cons, IH; lia.
Qed.

Lemma indexOf_range s :
  (Js.indexOf stateBySeverity s = -1 /\ onScale s = false \/
   exists v, s = symbol v /\ Js.indexOf stateBySeverity s = Z.of_nat (rank v))%Z.
Proof.
  destruct (onScale s) eqn:E.
  - right. apply onScale_symbol in E. destruct E as [v ->].
    exists v. split; [reflexivity | apply indexOf_symbol].
  - left. split; [apply indexOf_off_scale, E | reflexivity].
Qed.

Lemma severityMax_range statuses : (-1 <= severityMax statuses <= 7)%Z.
Proof.
  induction statuses as [| s0 rest IH]; simpl; [lia |].
  destruct (indexOf_range (state s0)) as [[H _] | [v [_ H]]]; rewrite H.
  - lia.
  - destruct v; simpl; lia.
Qed.

(** The maximum is reached by a record, and bounds them all. *)
Lemma severityMax_ge statuses (k : Z) :
  (-1 < k)%Z ->
  ((k <= severityMax statuses)%Z <->
   exists status, In status statuses /\
     (k <= Js.indexOf stateBySeverity (state status))%Z).
Proof.
  intros Hk. induction statuses as [| s0 rest IH]; simpl.
  - split; [lia | intros [s [[] _]]].
  - split.
    + intros H.
      destruct (Z_le_gt_dec k (Js.indexOf stateBySeverity (state s0)))
        as [Hs0 | Hs0].
      * exists s0. split; [left; reflexivity | exact Hs0].
      * destruct (proj1 IH) as [s [Hin Hs]]; [lia |].
        exists s. split; [right; exact Hin | exact Hs].
    + intros [s [[<- | Hin] Hs]]; [lia |].
      assert (k <= severityMax rest)%Z by (apply IH; exists s; auto). lia.
Qed.

Lemma getState_severityMax statuses :
  getState statuses
  = Js.or_else (Js.get stateBySeverity (severityMax statuses)) "".
Proof.
  rewrite getState_unfold, bestSeverityFrom_severityMax by lia.
  pose proof (severityMax_range statuses).
  replace (Z.max (-1) (severityMax statuses)) with (severityMax statuses)
    by lia.
  reflexivity.
Qed.

(** Each value the maximum can take, with the overall state it gives. *)
Lemma severityMax_cases statuses :
  (severityMax statuses = -1 /\ getState statuses = "")%Z \/
  exists v, severityMax statuses = Z.of_nat (rank v) /\
            getState statuses = symbol v.
Proof.
  rewrite getState_severityMax.
  pose proof (severityMax_range statuses) as R.
  set (m := severityMax statuses) in *.
  assert (m = -1 \/ m = 0 \/ m = 1 \/ m = 2 \/ m = 3 \/ m = 4 \/ m = 5
          \/ m = 6 \/ m = 7)%Z as Hm by lia.
  destruct Hm as [-> | [-> | [-> | [-> | [-> | [-> | [-> | [-> | ->]]]]]]]];
    [ left; split; reflexivity
    | right; exists neutral | right; exists success | right; exists pending
    | right; exists cancelled | right; exists timed_out
    | right; exists action_required | right; exists failure
    | right; exists error ]; split; reflexivity.
Qed.

Lemma symbol_not_empty v : symbol v <> "".
Proof. destruct v; discriminate. Qed.

Lemma indexOf_getState statuses :
  Js.indexOf stateBySeverity (getState statuses) = severityMax statuses.
Proof.
  destruct (severityMax_cases statuses) as [[-> ->] | [v [-> ->]]].
  - reflexivity.
  - apply indexOf_symbol.
Qed.

(** X1: whatever the records, [getState] returns the empty string exactly
    when no record has a state on the scale; otherwise it returns a state
    that is on the scale, occurs in the list, and is at least as severe as
    every state of the list that is on the scale. *)
Theorem getState_of_any_records (statuses : list Status) :
  (getState statuses = "" <->
   forall status, In status statuses -> onScale (state status) = false) /\
  (getState statuses <> "" ->
   exists best,
     getState statuses = symbol best /\
     In (symbol best) (map state statuses) /\
     forall status v,
       In status statuses -> state status = symbol v -> rank v <= rank best).
Proof.
  destruct (severityMax_cases statuses) as [[Hm Hg] | [best [Hm Hg]]].
  - split.
    + split; [| intros _; exact Hg].
      intros _ status Hin.
      destruct (indexOf_range (state status)) as [[_ H] | [v [_ Hv]]];
        [exact H |].
      assert (0 <= severityMax statuses)%Z.
      { apply severityMax_ge; [lia |]. exists status.
        split; [exact Hin | lia]. }
      lia.
    + intros Hne. contradiction.
  - assert (Hatt : exists status, In status statuses /\
                     state status = symbol best).
    { destruct (proj1 (severityMax_ge statuses (Z.of_nat (rank best))
                         ltac:(lia)) ltac:(lia)) as [status [Hin Hle]].
      exists status. split; [exact Hin |].
      destruct (indexOf_range (state status)) as [[H _] | [v [Hs Hv]]];
        [lia |].
      assert ((Z.of_nat (rank v) <= severityMax statuses)%Z).
      { apply severityMax_ge; [lia |]. exists status.
        split; [exact Hin | lia]. }
      rewrite Hs. f_equal.
      assert (rank v = rank best) by lia.
      destruct v, best; simpl in *; try lia; reflexivity. }
    split.
    + split.
      * intros H. rewrite Hg in H. destruct (symbol_not_empty _ H).
      * intros Hoff. exfalso.
        destruct Hatt as [status [Hin Hs]].
        specialize (Hoff status Hin).
        assert (onScale (state status) = true)
          by (apply onScale_symbol; exists best; exact Hs).
        congruence.
    + intros _. exists best. split; [exact Hg | split].
      * destruct Hatt as [status [Hin Hs]]. rewrite <- Hs.
        apply in_map, Hin.
      * intros status v Hin Hs.
        assert ((Z.of_nat (rank v) <= severityMax statuses)%Z).
        { apply severityMax_ge; [lia |]. exists status.
          split; [exact Hin |]. rewrite Hs, indexOf_symbol. lia. }
        lia.
Qed.

Lemma severityMax_app statuses1 statuses2 :
  severityMax (statuses1 ++ statuses2)
  = Z.max (severityMax statuses1) (severityMax statuses2).
Proof.
  induction statuses1 as [| s0 rest IH]; simpl.
  - pose proof (severityMax_range statuses2). lia.
  - rewrite IH. lia.
Qed.

Lemma severityMax_Permutation statuses1 statuses2 :
  Permutation statuses1 statuses2 ->
  severityMax statuses1 = severityMax statuses2.
Proof.
  induction 1 as [| s l1 l2 _ IH | s1 s2 l | l1 l2 l3 _ IH1 _ IH2]; simpl.
  - reflexivity.
  - rewrite IH. reflexivity.
  - lia.
  - congruence.
Qed.

(** X2: the overall state does not depend on the order of the records. *)
Theorem getState_Permutation (statuses1 statuses2 : list Status) :
  Permutation statuses1 statuses2 ->
  getState statuses1 = getState statuses2.
Proof.
  intros Hperm. rewrite !getState_severityMax.
  rewrite (severityMax_Permutation _ _ Hperm). reflexivity.
Qed.

Lemma getState_Permutation_witness :
  getState [ mkStatus "failure" "test" None; mkStatus "success" "build" None ]
  = getState [ mkStatus "success" "build" None; mkStatus "failure" "test" None ].
Proof.
  apply getState_Permutation. apply perm_swap.
Defined.

(** X3: the overall state of two lists put together is the overall state
    of their two overall states; so the statuses and the check runs can be
    aggregated apart. *)
Theorem getState_app (statuses1 statuses2 : list Status) :
  forall context1 url1 context2 url2,
    getState (statuses1 ++ statuses2)
    = getState [ mkStatus (getState statuses1) context1 url1;
                 mkStatus (getState statuses2) context2 url2 ].
Proof.
  intros.
  rewrite (getState_severityMax (statuses1 ++ statuses2)), severityMax_app.
  match goal with
  | |- _ = getState ?l => rewrite (getState_severityMax l)
  end.
  simpl severityMax. simpl state. rewrite !indexOf_getState.
  pose proof (severityMax_range statuses1).
  pose proof (severityMax_range statuses2).
  replace (Z.max (severityMax statuses1) (Z.max (severityMax statuses2) (-1)))
    with (Z.max (severityMax statuses1) (severityMax statuses2)) by lia.
  reflexivity.
Qed.

(** ** The exit code of a list of records *)

Lemma exit_code_by_severityMax statuses :
  stateToExitCode (getState statuses)
  = (if severityMax statuses <? 0 then 3
     else if severityMax statuses <? 2 then 0
     else if severityMax statuses =? 2 then 2
     else 1)%Z.
Proof.
  destruct (severityMax_cases statuses) as [[-> ->] | [v [-> ->]]].
  - reflexivity.
  - destruct v; reflexivity.
Qed.

Lemma indexOf_failing s :
  (3 <= Js.indexOf stateBySeverity s)%Z <-> In s failingStates.
Proof.
  destruct (indexOf_range s) as [[H Hoff] | [v [-> H]]]; rewrite H.
  - split; [lia |]. intros Hin. exfalso.
    assert (onScale s = true).
    { apply onScale_symbol. unfold failingStates in Hin. simpl in Hin.
      destruct Hin as [<- | [<- | [<- | [<- | [<- | []]]]]];
        [ exists cancelled | exists timed_out | exists action_required
        | exists failure | exists error ]; reflexivity. }
    congruence.
  - unfold failingStates.
    destruct v; simpl; split; intros Hv; try lia; try tauto;
      repeat (destruct Hv as [Hv | Hv]; [discriminate Hv |]); destruct Hv.
Qed.

Lemma indexOf_pending s :
  Js.indexOf stateBySeverity s = 2%Z <-> s = "pending".
Proof.
  destruct (indexOf_range s) as [[H Hoff] | [v [-> H]]]; rewrite H.
  - split; [lia |]. intros ->. discriminate Hoff.
  - destruct v; simpl; split; intros Hv; try lia; try reflexivity;
      discriminate Hv.
Qed.

Lemma indexOf_passing s :
  (0 <= Js.indexOf stateBySeverity s < 2)%Z <-> In s ["neutral"; "success"].
Proof.
  destruct (indexOf_range s) as [[H Hoff] | [v [-> H]]]; rewrite H.
  - split; [lia |]. intros [<- | [<- | []]]; discriminate Hoff.
  - destruct v; simpl; split; intros Hv; try lia; try tauto;
      repeat (destruct Hv as [Hv | Hv]; [discriminate Hv |]); destruct Hv.
Qed.

Lemma exit_code_of_records_failing statuses :
  stateToExitCode (getState statuses) = 1%Z
  <-> someState statuses failingStates.
Proof.
  rewrite exit_code_by_severityMax.
  pose proof (severityMax_range statuses) as R.
  assert (Hfail : (3 <= severityMax statuses)%Z
                  <-> someState statuses failingStates).
  { rewrite severityMax_ge by lia. unfold someState.
    split; intros [s [Hin H]]; exists s; split; auto;
      apply indexOf_failing; exact H. }
  rewrite <- Hfail.
  destruct (Z.ltb_spec (severityMax statuses) 0);
    [| destruct (Z.ltb_spec (severityMax statuses) 2);
       [| destruct (Z.eqb_spec (severityMax statuses) 2)]];
    split; intros; try discriminate; lia.
Qed.

(** X4: the exit code of a list of records is 1 exactly when some record
    is of the failing family; 2 exactly when none is and some record is
    pending; 0 exactly when none is failing or pending and some record is
    neutral or success; and 3 exactly when no record has a state on the
    scale. *)
Theorem exit_code_of_records (statuses : list Status) :
  let code := stateToExitCode (getState statuses) in
  let some := someState statuses in
  (code = 1%Z <-> some failingStates) /\
  (code = 2%Z <-> some ["pending"] /\ ~ some failingStates) /\
  (code = 0%Z <->
     some ["neutral"; "success"] /\ ~ some ["pending"]
     /\ ~ some failingStates) /\
  (code = 3%Z <->
     forall status, In status statuses -> onScale (state status) = false).
Proof.
  intros code some. subst code. unfold someState in some.
  rewrite exit_code_by_severityMax.
  pose proof (severityMax_range statuses) as R.
  assert (Hfail : (3 <= severityMax statuses)%Z <-> some failingStates).
  { rewrite severityMax_ge by lia. unfold some.
    split; intros [s [Hin H]]; exists s; split; auto;
      apply indexOf_failing; exact H. }
  assert (Hpend : (2 <= severityMax statuses)%Z
                  <-> some ["pending"] \/ some failingStates).
  { rewrite severityMax_ge by lia. unfold some. split.
    - intros [s [Hin H]].
      destruct (Z_le_gt_dec 3 (Js.indexOf stateBySeverity (state s))) as [H3 | H3].
      + right. exists s. split; [exact Hin | apply indexOf_failing, H3].
      + left. exists s. split; [exact Hin |]. left. symmetry.
        apply indexOf_pending. lia.
    - intros [[s [Hin [H | []]]] | [s [Hin H]]]; exists s; split; auto.
      + symmetry in H. apply indexOf_pending in H. lia.
      + apply indexOf_failing in H. lia. }
  assert (Hpass : (0 <= severityMax statuses)%Z
                  <-> some ["neutral"; "success"] \/ some ["pending"]
                      \/ some failingStates).
  { rewrite severityMax_ge by lia. unfold some. split.
    - intros [s [Hin H]].
      destruct (Z_le_gt_dec 2 (Js.indexOf stateBySeverity (state s))) as [H2 | H2].
      + right. apply Hpend. apply severityMax_ge; [lia |].
        exists s. split; assumption.
      + left. exists s. split; [exact Hin | apply indexOf_passing; lia].
    - intros [[s [Hin H]] | H].
      + exists s. split; [exact Hin | apply indexOf_passing in H; lia].
      + apply Hpend in H. apply severityMax_ge in H; [| lia].
        destruct H as [s [Hin H]]. exists s. split; [exact Hin | lia]. }
  assert (Hnone : (severityMax statuses < 0)%Z <->
            forall status, In status statuses -> onScale (state status) = false).
  { split.
    - intros Hm status Hin.
      destruct (indexOf_range (state status)) as [[_ H] | [v [_ Hv]]];
        [exact H |].
      assert (0 <= severityMax statuses)%Z; [| lia].
      apply severityMax_ge; [lia |]. exists status. split; [exact Hin | lia].
    - intros Hoff.
      destruct (Z_lt_ge_dec (severityMax statuses) 0) as [H | H]; [exact H |].
      exfalso. apply Z.ge_le in H. apply severityMax_ge in H; [| lia].
      destruct H as [s [Hin H]]. specialize (Hoff s Hin).
      rewrite (indexOf_off_scale _ Hoff) in H. lia. }
  assert (E2 : some ["pending"] /\ ~ some failingStates
               <-> (2 <= severityMax statuses)%Z
                   /\ ~ (3 <= severityMax statuses)%Z)
    by (rewrite Hpend, Hfail; tauto).
  assert (E0 : some ["neutral"; "success"] /\ ~ some ["pending"]
               /\ ~ some failingStates
               <-> (0 <= severityMax statuses)%Z
                   /\ ~ (2 <= severityMax statuses)%Z)
    by (rewrite Hpass, Hpend; tauto).
  rewrite E2, E0, <- Hfail, <- Hnone.
  destruct (Z.ltb_spec (severityMax statuses) 0);
    [| destruct (Z.ltb_spec (severityMax statuses) 2);
       [| destruct (Z.eqb_spec (severityMax statuses) 2)]];
    repeat split; intros; try discriminate; lia.
Qed.

(** ** The state markers *)

Lemma off_scale_eqb s :
  onScale s = false ->
  JsString.eqb s "neutral" = false /\ JsString.eqb s "success" = false /\
  JsString.eqb s "pending" = false /\ JsString.eqb s "cancelled" = false /\
  JsString.eqb s "timed_out" = false /\ JsString.eqb s "action_required" = false /\
  JsString.eqb s "failure" = false /\ JsString.eqb s "error" = false.
Proof.
  unfold onScale, stateBySeverity. cbn [existsb].
  rewrite !orb_false_iff. tauto.
Qed.

Lemma getStateMarker_off_scale s useColor :
  onScale s = false -> getStateMarker s useColor = "".
Proof.
  intros H. apply off_scale_eqb in H.
  destruct H as [H1 [H2 [H3 [H4 [H5 [H6 [H7 H8]]]]]]].
  unfold getStateMarker. rewrite H1, H2, H3, H4, H5, H6, H7, H8. reflexivity.
Qed.

Lemma stateToExitCode_off_scale s :
  onScale s = false -> stateToExitCode s = 3%Z.
Proof.
  intros H. apply off_scale_eqb in H.
  destruct H as [H1 [H2 [H3 [H4 [H5 [H6 [H7 H8]]]]]]].
  unfold stateToExitCode. rewrite H1, H2, H3, H4, H5, H6, H7, H8. reflexivity.
Qed.

(** X5: the marker of a state is empty exactly when the state is not on
    the scale, with and without colour; and the coloured marker of a state
    on the scale is the plain marker between the escape sequence of one of
    the colours 30 to 33 and the reset sequence. *)
Theorem getStateMarker_of_scale (state : string) :
  (forall useColor,
     getStateMarker state useColor = "" <-> onScale state = false) /\
  (onScale state = true ->
   exists code,
     In code [30; 31; 32; 33] /\
     getStateMarker state true
     = Js.ESC ++ "[" ++ Js.toString code ++ "m"
       ++ getStateMarker state false ++ Js.ESC ++ "[39m").
Proof.
  split.
  - intros useColor. split; [| apply getStateMarker_off_scale].
    destruct (onScale state) eqn:E; [| reflexivity].
    apply onScale_symbol in E. destruct E as [v ->].
    destruct v, useColor; discriminate.
  - intros E. apply onScale_symbol in E. destruct E as [v ->].
    destruct v;
      [ exists 30 | exists 32 | exists 33 | exists 31 | exists 31
      | exists 31 | exists 31 | exists 31 ];
      (split; [simpl; tauto | reflexivity]).
Qed.

(** X6: two states with the same marker have the same exit code. *)
Theorem same_marker_same_exit_code (state1 state2 : string) (useColor : bool) :
  getStateMarker state1 useColor = getStateMarker state2 useColor ->
  stateToExitCode state1 = stateToExitCode state2.
Proof.
  destruct (onScale state1) eqn:E1; destruct (onScale state2) eqn:E2.
  - apply onScale_symbol in E1, E2.
    destruct E1 as [v1 ->], E2 as [v2 ->].
    destruct v1, v2, useColor; intros H; try reflexivity; discriminate H.
  - rewrite (getStateMarker_off_scale _ useColor E2).
    apply onScale_symbol in E1. destruct E1 as [v1 ->].
    destruct v1, useColor; discriminate.
  - rewrite (getStateMarker_off_scale _ useColor E1).
    apply onScale_symbol in E2. destruct E2 as [v2 ->].
    destruct v2, useColor; discriminate.
  - intros _. rewrite !stateToExitCode_off_scale by assumption. reflexivity.
Qed.

Lemma same_marker_same_exit_code_witness :
  stateToExitCode "failure" = stateToExitCode "timed_out".
Proof.
  apply (same_marker_same_exit_code "failure" "timed_out" true).
  reflexivity.
Defined.

(** ** Check runs *)

(** X7: while a check run is not completed, the exit code of the statuses
    and check runs together is 2 (pending) or 1 (failing), never 0 or 3. *)
Theorem incomplete_check_run_is_pending
  (statuses : list Status) (check_runs : list CheckRun) :
  (exists checkRun, In checkRun check_runs /\ status checkRun <> "completed") ->
  let code :=
    stateToExitCode
      (getState (statuses ++ map checkRunToStatus check_runs)%list) in
  (code = 2%Z \/ code = 1%Z) /\
  (code = 1%Z <->
   someState (statuses ++ map checkRunToStatus check_runs)%list failingStates).
Proof.
  intros [checkRun [Hin Hnot]] code. subst code.
  split; [| apply exit_code_of_records_failing].
  rewrite exit_code_by_severityMax.
  assert (2 <= severityMax (statuses ++ map checkRunToStatus check_runs)%list)%Z.
  { apply severityMax_ge; [lia |].
    exists (checkRunToStatus checkRun). split.
    - apply in_or_app. right. apply in_map, Hin.
    - unfold checkRunToStatus. simpl state.
      apply JsStringFacts.eqb_neq in Hnot. rewrite Hnot.
      change "pending" with (symbol pending).
      rewrite indexOf_symbol. simpl. lia. }
  destruct (Z.ltb_spec (severityMax (statuses ++ map checkRunToStatus check_runs)%list) 0);
    [lia |].
  destruct (Z.ltb_spec (severityMax (statuses ++ map checkRunToStatus check_runs)%list) 2);
    [lia |].
  destruct (Z.eqb_spec (severityMax (statuses ++ map checkRunToStatus check_runs)%list) 2);
    auto.
Qed.

Lemma incomplete_check_run_is_pending_witness :
  stateToExitCode
    (getState
       ([mkStatus "success" "build" None]
        ++ map checkRunToStatus
             [mkCheckRun "in_progress" "" "lint" None])%list) = 2%Z.
Proof.
  destruct (incomplete_check_run_is_pending
              [mkStatus "success" "build" None]
              [mkCheckRun "in_progress" "" "lint" None]) as [[H | H] _].
  - exists (mkCheckRun "in_progress" "" "lint" None).
    split; [left; reflexivity | discriminate].
  - exact H.
  - discriminate H.
Defined.

(** ** The report of [githubCiStatus] *)

Lemma getState_empty_iff_existsb statuses :
  existsb (fun status => onScale (state status)) statuses = false
  <-> getState statuses = "".
Proof.
  split.
  - intros Hex.
    destruct (severityMax_cases statuses) as [[_ Hg] | [v [Hm _]]];
      [exact Hg | exfalso].
    destruct (proj1 (severityMax_ge statuses 0 ltac:(lia)) ltac:(lia))
      as [status [Hin Hle]].
    assert (Hon : onScale (state status) = true).
    { destruct (onScale (state status)) eqn:E; [reflexivity |].
      rewrite (indexOf_off_scale _ E) in Hle. lia. }
    assert (existsb (fun status => onScale (state status)) statuses = true)
      by (apply existsb_exists; exists status; auto).
    congruence.
  - intros Hg.
    destruct (existsb _ statuses) eqn:E; [exfalso | reflexivity].
    apply existsb_exists in E. destruct E as [status [Hin Hon]].
    apply onScale_symbol in Hon. destruct Hon as [v Hv].
    assert (0 <= severityMax statuses)%Z.
    { apply severityMax_ge; [lia |]. exists status.
      split; [exact Hin |]. rewrite Hv, indexOf_symbol. lia. }
    destruct (severityMax_cases statuses) as [[Hm _] | [w [_ Hw]]]; [lia |].
    rewrite Hw in Hg. destruct (symbol_not_empty _ Hg).
Qed.

Lemma formatStatuses_not_empty status statuses useColor :
  formatStatuses (status :: statuses) useColor <> "".
Proof.
  intros H. apply (f_equal JsString.length) in H.
  unfold formatStatuses, Js.join in H. cbn [map JsString.concat] in H.
  set (line := formatStatus status (contextWidth (status :: statuses)) useColor)
    in H.
  assert (Hline : 0 < JsString.length line).
  { unfold line, formatStatus.
    rewrite JsFacts.length_append, JsFacts.length_append. simpl. lia. }
  destruct (map _ statuses); simpl in H.
  - lia.
  - rewrite JsFacts.length_append in H. lia.
Qed.

(** X8: [githubCiStatus] hands [fetchCiStatus] the [auth] and [wait]
    options, and a [debug] callback only when the verbosity is above 1.  If
    the fetch rejects, nothing is written and the error is passed on.
    Otherwise the exit code is that of the statuses and the converted check
    runs, whatever the verbosity and the colour; nothing is written when
    the verbosity is negative or not given; at verbosity 0 one line is
    written, the overall state, or [no status] when no record has a state on
    the scale; and above 0 one text is written, the breakdown of the
    records, or [no status] when there is no record. *)
Theorem githubCiStatus_report {Wait : Type}
  (fetchCiStatus :
     string -> string -> string -> StatusOptions Wait ->
     Js.completion (list Status * list CheckRun))
  (owner repo sha : string) (projectRejectsFirst : bool)
  (options : Options Wait) :
  let result :=
    githubCiStatus fetchCiStatus (Js.Normal (owner, repo)) (Js.Normal sha)
      projectRejectsFirst options in
  exists statusOptions,
    status_auth statusOptions = auth options /\
    status_wait statusOptions = wait options /\
    (debug statusOptions = true <->
     exists v, verbosity options = Some v /\ (1 < v)%Z) /\
    match fetchCiStatus owner repo sha statusOptions with
    | Js.Throw e => result = ([], Js.Throw e)
    | Js.Normal (combinedStatuses, check_runs) =>
        let statuses :=
          (combinedStatuses ++ map checkRunToStatus check_runs)%list in
        let color :=
          match useColor options with
          | Some b => b
          | None => isTTY options
          end in
        snd result = Js.Normal (stateToExitCode (getState statuses)) /\
        match verbosity options with
        | None => fst result = []
        | Some v =>
            ((v < 0)%Z -> fst result = []) /\
            (v = 0%Z ->
             fst result
             = [ (if existsb (fun status => onScale (state status)) statuses
                  then getState statuses
                  else "no status") ++ Js.LF ]) /\
            ((0 < v)%Z ->
             fst result
             = [ match statuses with
                 | [] => "no status"
                 | _ :: _ => formatStatuses statuses color
                 end ++ Js.LF ])
        end
    end.
Proof.
  intros result. subst result. unfold githubCiStatus. cbn [Promise_all2].
  match goal with
  | |- context [fetchCiStatus owner repo sha ?so] => exists so
  end.
  split; [reflexivity | split; [reflexivity | split]].
  - cbn [debug]. destruct (verbosity options) as [v |].
    + destruct (Z.gtb_spec v 1); split.
      * intros _. exists v. split; [reflexivity | lia].
      * reflexivity.
      * discriminate.
      * intros [v' [Hv Hlt]]. injection Hv as <-. lia.
    + split; [discriminate | intros [v [Hv _]]; discriminate Hv].
  - destruct (fetchCiStatus owner repo sha _)
      as [[combinedStatuses check_runs] | e]; [| reflexivity].
    cbn zeta. split; [reflexivity |]. cbn [fst].
    destruct (verbosity options) as [v |]; [| reflexivity].
    split; [| split].
    + intros Hv. destruct (Z.geb_spec v 0); [lia | reflexivity].
    + intros ->. cbn [Z.geb Z.compare Z.eqb].
      destruct (existsb _ _) eqn:E.
      * assert (Hne : getState
          (combinedStatuses ++ map checkRunToStatus check_runs)%list <> "").
        { intros Hg. apply getState_empty_iff_existsb in Hg. congruence. }
        unfold Js.or_else. apply JsStringFacts.eqb_neq in Hne. rewrite Hne.
        reflexivity.
      * apply getState_empty_iff_existsb in E. rewrite E. reflexivity.
    + intros Hv. destruct (Z.geb_spec v 0); [| lia].
      destruct (Z.eqb_spec v 0); [lia |].
      destruct (combinedStatuses ++ map checkRunToStatus check_runs)%list
        as [| status statuses] eqn:Hs.
      * reflexivity.
      * unfold Js.or_else.
        assert (Hne := formatStatuses_not_empty status statuses
          match useColor options with
          | Some false => false
          | Some true => true
          | None => isTTY options
          end).
        apply JsStringFacts.eqb_neq in Hne. rewrite Hne.
        destruct (useColor options) as [[|] |]; reflexivity.
Qed.

End IndexProps.

(* ================================================================== *)
(** * Properties of [src/lib/github-utils.js] *)
(* ================================================================== *)

Module GithubUtilsProps.
Import GithubUtils GithubUtilsSpec.

(** ** The shape of a project path *)

Lemma slice_strips_suffix pre suffix :
  Js.slice_0_neg (pre ++ suffix) (JsString.length suffix) = pre.
Proof.
  unfold Js.slice_0_neg. rewrite JsFacts.length_append.
  replace (JsString.length pre + JsString.length suffix - JsString.length suffix)
    with (JsString.length pre) by lia.
  induction pre as [| c pre IH]; simpl.
  - destruct suffix; reflexivity.
  - rewrite IH. reflexivity.
Qed.

Lemma slice_strips_dot_git pre : Js.slice_0_neg (pre ++ ".git") 4 = pre.
Proof. exact (slice_strips_suffix pre ".git"). Qed.

Lemma withoutDotGit_code last repo :
  withoutDotGit last repo <->
  repo = if Js.endsWith last ".git" then Js.slice_0_neg last 4 else last.
Proof.
  split.
  - intros [repo' -> | Hnot].
    + replace (Js.endsWith (repo' ++ ".git") ".git") with true.
      * symmetry. apply slice_strips_dot_git.
      * symmetry. apply JsFacts.endsWith_spec. exists repo'. reflexivity.
    + destruct (Js.endsWith last ".git") eqn:E; [| reflexivity].
      apply JsFacts.endsWith_spec in E. destruct E as [pre E].
      destruct (Hnot pre E).
  - intros ->. destruct (Js.endsWith last ".git") eqn:E.
    + apply JsFacts.endsWith_spec in E. destruct E as [pre ->].
      rewrite slice_strips_dot_git. apply stripped. reflexivity.
    + apply untouched. intros pre Hpre.
      assert (Js.endsWith last ".git" = true) as E'
        by (apply JsFacts.endsWith_spec; exists pre; exact Hpre).
      rewrite E in E'. discriminate E'.
Qed.

Lemma projectOfUrl_shape remoteUrl owner repo :
  projectOfUrl remoteUrl = Some (owner, repo) <->
  hasProjectShape (pathname remoteUrl) owner repo.
Proof.
  unfold projectOfUrl, hasProjectShape. split.
  - destruct (Js.split Js.slash (pathname remoteUrl))
      as [| part0 [| part1 [| part2 [| part3 more]]]]; try discriminate.
    destruct (JsStringFacts.eqb_spec part0 "") as [-> | N0]; [| discriminate].
    destruct (JsStringFacts.eqb_spec part1 "") as [-> | N1]; [discriminate |].
    destruct (JsStringFacts.eqb_spec part2 "") as [-> | N2]; [discriminate |].
    simpl negb. cbv iota. simpl orb. cbv iota.
    destruct (JsStringFacts.eqb_spec
      (if Js.endsWith part2 ".git" then Js.slice_0_neg part2 4 else part2) "")
      as [E | NE]; [discriminate |].
    intros H. injection H as <- <-. exists part2.
    split; [reflexivity | split; [exact N1 | split; [| exact NE]]].
    apply withoutDotGit_code. reflexivity.
  - intros [last [Hsplit [Howner [Hstrip Hrepo]]]]. rewrite Hsplit.
    apply withoutDotGit_code in Hstrip.
    assert (Hlast : last <> "").
    { intros ->. apply Hrepo. rewrite Hstrip. reflexivity. }
    rewrite JsStringFacts.eqb_refl.
    apply JsStringFacts.eqb_neq in Howner, Hlast. rewrite Howner, Hlast.
    simpl negb. cbv iota. simpl orb. cbv iota.
    rewrite <- Hstrip. apply JsStringFacts.eqb_neq in Hrepo. rewrite Hrepo.
    reflexivity.
Qed.


(** ** The host filter *)

(** The condition of [getGitHubUrls] on a host name. *)
Lemma isGitHubHost_iff (gitHubHostEnv : option string) (host : string) :
  isGitHubHost gitHubHostEnv host = true <->
  host = "github.com" \/ gitHubHostEnv = Some host \/
  exists sub, host = sub ++ ".github.com".
Proof.
  unfold isGitHubHost.
  rewrite !orb_true_iff, JsStringFacts.eqb_eq, JsFacts.endsWith_spec.
  assert (Henv : Js.strict_eq host gitHubHostEnv = true
                 <-> gitHubHostEnv = Some host).
  { unfold Js.strict_eq. destruct gitHubHostEnv as [alt |].
    - rewrite JsStringFacts.eqb_eq. split; [intros ->; reflexivity |].
      intros H. injection H as ->. reflexivity.
    - split; discriminate. }
  rewrite Henv. tauto.
Qed.

(** ** The set of candidates *)

Section Candidates.
Variable parseGitUrl : string -> Js.completion URL.
Variable gitHubHostEnv : option string.

(** The objects of [gitHubUrls] hold the plain filtered list, at addresses
    that are fresh and pairwise distinct. *)
Lemma gitHubUrlsArray_fresh remoteUrls :
  forall heap,
    let (gitHubUrls, heap') :=
      gitHubUrlsArray parseGitUrl gitHubHostEnv remoteUrls heap in
    heap <= heap' /\
    map Js.value gitHubUrls = keptUrls parseGitUrl gitHubHostEnv remoteUrls /\
    Forall (fun o => heap <= Js.ref o < heap') gitHubUrls /\
    NoDup (map Js.ref gitHubUrls).
Proof.
  unfold gitHubUrlsArray.
  induction remoteUrls as [| remoteUrl rest IH]; intros heap; simpl.
  - repeat split; [lia | constructor | constructor].
  - unfold parseGitHubUrl at 1, parseGitUrl_alloc.
    destruct (parseGitUrl remoteUrl) as [parsed | err]; simpl Js.value.
    + specialize (IH (S heap)).
      destruct (isGitHubHost gitHubHostEnv (hostname parsed));
        destruct (Js.map_alloc (parseGitHubUrl parseGitUrl gitHubHostEnv)
                    rest (S heap)) as [objs heap'];
        simpl; destruct IH as [Hle [Hval [Hrefs Hnodup]]].
      * split; [lia | split; [rewrite Hval; reflexivity | split]].
        -- constructor; [simpl; lia |].
           eapply Forall_impl; [| exact Hrefs]. simpl. intros o Ho. lia.
        -- constructor; [| exact Hnodup].
           intros Hin. apply in_map_iff in Hin.
           destruct Hin as [o [Href Hin]].
           rewrite Forall_forall in Hrefs. specialize (Hrefs o Hin). lia.
      * split; [lia | split; [exact Hval | split; [| exact Hnodup]]].
        eapply Forall_impl; [| exact Hrefs]. simpl. intros o Ho. lia.
    + specialize (IH heap).
      destruct (Js.map_alloc (parseGitHubUrl parseGitUrl gitHubHostEnv)
                  rest heap) as [objs heap'].
      simpl. exact IH.
Qed.

(** A set built from objects at pairwise distinct addresses keeps them
    all. *)
Lemma fold_Set_add_distinct {A} (objs : list (Js.Obj A)) :
  forall set,
    NoDup (map Js.ref (set ++ objs)%list) ->
    fold_left Js.Set_add objs set = (set ++ objs)%list.
Proof.
  induction objs as [| o rest IH]; intros set Hnodup; simpl.
  - rewrite app_nil_r. reflexivity.
  - assert (Hhas : Js.Set_has set o = false).
    { unfold Js.Set_has. destruct (existsb _ set) eqn:E; [| reflexivity].
      apply existsb_exists in E. destruct E as [o' [Hin Heq]].
      apply Nat.eqb_eq in Heq. exfalso.
      rewrite map_app in Hnodup. simpl in Hnodup.
      apply NoDup_remove_2 in Hnodup. apply Hnodup, in_or_app. left.
      rewrite <- Heq. apply in_map, Hin. }
    unfold Js.Set_add at 2. rewrite Hhas.
    rewrite IH; rewrite <- app_assoc; simpl; [reflexivity | exact Hnodup].
Qed.

Lemma new_Set_distinct {A} (objs : list (Js.Obj A)) :
  NoDup (map Js.ref objs) -> Js.new_Set objs = objs.
Proof. intros H. unfold Js.new_Set. rewrite fold_Set_add_distinct; auto. Qed.

End Candidates.

(** A parsed URL is in the plain filtered list exactly when it is the
    parse of a remote URL and its host passes the filter. *)
Lemma in_keptUrls parseGitUrl gitHubHostEnv remoteUrls parsed :
  In parsed (keptUrls parseGitUrl gitHubHostEnv remoteUrls) <->
  exists remoteUrl,
    In remoteUrl remoteUrls /\
    parseGitUrl remoteUrl = Js.Normal parsed /\
    isGitHubHost gitHubHostEnv (hostname parsed) = true.
Proof.
  induction remoteUrls as [| u rest IH]; simpl.
  - split; [intros [] | intros [u [[] _]]].
  - destruct (parseGitUrl u) as [p | e] eqn:E.
    + destruct (isGitHubHost gitHubHostEnv (hostname p)) eqn:F; simpl;
        rewrite IH; split.
      * intros [<- | [u' [Hin H]]]; [exists u | exists u']; auto.
      * intros [u' [[<- | Hin] [Hp Hh]]];
          [left; congruence | right; exists u'; auto].
      * intros [u' [Hin H]]. exists u'. auto.
      * intros [u' [[<- | Hin] [Hp Hh]]]; [| exists u'; auto].
        rewrite E in Hp. injection Hp as ->. congruence.
    + rewrite IH. split.
      * intros [u' [Hin H]]. exists u'. auto.
      * intros [u' [[<- | Hin] [Hp Hh]]]; [congruence | exists u'; auto].
Qed.

(** C6: a remote URL of [getRemoteUrls] that parses is kept among the
    candidates of [getGitHubUrls] exactly when its host name is
    [github.com], or is the host name given by [GITHUB_HOST], or ends with
    [.github.com]; the callback of the [map] decides it; and
    [github.com.example.com] passes only when [GITHUB_HOST] names it. *)
Theorem kept_iff_github_host
  (parseGitUrl : string -> Js.completion URL) (gitHubHostEnv : option string)
  (config : Config) (branchRemote : option string) (heap : Js.Ref)
  (remoteUrls : list string) (remoteUrl : string) (parsed : URL) :
  getRemoteUrls config branchRemote = Js.Normal remoteUrls ->
  In remoteUrl remoteUrls ->
  parseGitUrl remoteUrl = Js.Normal parsed ->
  exists candidates heap',
    getGitHubUrls parseGitUrl gitHubHostEnv config branchRemote heap
      = Js.Normal (candidates, heap') /\
    ((exists candidate,
        In candidate candidates /\ Js.value candidate = parsed) <->
     hostname parsed = "github.com" \/
     gitHubHostEnv = Some (hostname parsed) \/
     exists sub, hostname parsed = sub ++ ".github.com") /\
    (forall heap0,
       let kept :=
         fst (parseGitHubUrl parseGitUrl gitHubHostEnv remoteUrl heap0) in
       (kept = Some (Js.mkObj heap0 parsed) <->
          hostname parsed = "github.com" \/
          gitHubHostEnv = Some (hostname parsed) \/
          exists sub, hostname parsed = sub ++ ".github.com") /\
       (kept = None \/ kept = Some (Js.mkObj heap0 parsed))) /\
    (isGitHubHost gitHubHostEnv "github.com.example.com" = true <->
       gitHubHostEnv = Some "github.com.example.com").
Proof.
  intros Hurls Hin Hparse. unfold getGitHubUrls. rewrite Hurls. simpl.
  pose proof (gitHubUrlsArray_fresh parseGitUrl gitHubHostEnv remoteUrls heap)
    as Hfresh.
  destruct (gitHubUrlsArray parseGitUrl gitHubHostEnv remoteUrls heap)
    as [gitHubUrls heap'].
  destruct Hfresh as [_ [Hval [_ Hnodup]]].
  exists gitHubUrls, heap'. rewrite (new_Set_distinct _ Hnodup).
  split; [reflexivity | split; [| split]].
  - rewrite <- isGitHubHost_iff. split.
    + intros [candidate [Hc Hv]].
      assert (Hk : In parsed (keptUrls parseGitUrl gitHubHostEnv remoteUrls)).
      { rewrite <- Hval, <- Hv. apply in_map, Hc. }
      apply in_keptUrls in Hk. destruct Hk as [u [_ [_ Hh]]]. exact Hh.
    + intros Hh.
      assert (Hk : In parsed (keptUrls parseGitUrl gitHubHostEnv remoteUrls))
        by (apply in_keptUrls; exists remoteUrl; auto).
      rewrite <- Hval in Hk. apply in_map_iff in Hk.
      destruct Hk as [candidate [Hv Hc]]. exists candidate. auto.
  - intros heap0.
    unfold parseGitHubUrl, parseGitUrl_alloc. rewrite Hparse. simpl Js.value.
    rewrite <- isGitHubHost_iff.
    destruct (isGitHubHost gitHubHostEnv (hostname parsed)); simpl.
    + split; [split; reflexivity | auto].
    + split; [split; discriminate | auto].
  - rewrite isGitHubHost_iff. split.
    + intros [H | [H | [sub H]]]; [discriminate H | exact H |].
      exfalso.
      assert (E : Js.endsWith "github.com.example.com" ".github.com" = true)
        by (apply JsFacts.endsWith_spec; exists sub; exact H).
      discriminate E.
    + intros H. right. left. exact H.
Qed.

(** A sub-domain of [github.com] is kept. *)
Lemma kept_iff_github_host_witness :
  exists candidate,
    In candidate
      (match
         getGitHubUrls parseTestUrl None
           [("remote.remote1.url",
             "https://example.github.com/kevinoid/hub-ci-status.git")]
           None 0
       with
       | Js.Normal (candidates, _) => candidates
       | Js.Throw _ => []
       end) /\
    Js.value candidate
    = mkURL "example.github.com" "/kevinoid/hub-ci-status.git".
Proof.
  destruct (kept_iff_github_host parseTestUrl None
              [("remote.remote1.url",
                "https://example.github.com/kevinoid/hub-ci-status.git")]
              None 0
              ["https://example.github.com/kevinoid/hub-ci-status.git"]
              "https://example.github.com/kevinoid/hub-ci-status.git"
              (mkURL "example.github.com" "/kevinoid/hub-ci-status.git")
              eq_refl (or_introl eq_refl) eq_refl)
    as [candidates [heap' [Hget [Hkept _]]]].
  rewrite Hget. apply Hkept.
  right. right. exists "example". reflexivity.
Defined.

(** C9: [getGitHubUrls] yields one candidate for every remote URL, in the
    order of [getRemoteUrls], that parses and passes the host filter: the
    set is the array it was built from, none of whose objects is dropped,
    and the contents of its objects are the plain filtered list; two
    remotes with the same URL both yield a candidate. *)
Theorem candidates_are_the_filtered_list
  (parseGitUrl : string -> Js.completion URL) (gitHubHostEnv : option string)
  (config : Config) (branchRemote : option string) (heap : Js.Ref) :
  match getRemoteUrls config branchRemote with
  | Js.Normal remoteUrls =>
      exists candidates heap',
        getGitHubUrls parseGitUrl gitHubHostEnv config branchRemote heap
          = Js.Normal (candidates, heap') /\
        candidates
          = fst (gitHubUrlsArray parseGitUrl gitHubHostEnv remoteUrls heap) /\
        map Js.value candidates
          = keptUrls parseGitUrl gitHubHostEnv remoteUrls /\
        NoDup (map Js.ref candidates)
  | Js.Throw e =>
      getGitHubUrls parseGitUrl gitHubHostEnv config branchRemote heap
        = Js.Throw e
  end /\
  (forall remoteUrl parsed,
     parseGitUrl remoteUrl = Js.Normal parsed ->
     isGitHubHost gitHubHostEnv (hostname parsed) = true ->
     getGitHubUrls parseGitUrl gitHubHostEnv
       [("remote.a.url", remoteUrl); ("remote.b.url", remoteUrl)] None heap
     = Js.Normal ([Js.mkObj heap parsed; Js.mkObj (S heap) parsed],
                  S (S heap))).
Proof.
  split.
  - unfold getGitHubUrls.
    destruct (getRemoteUrls config branchRemote) as [remoteUrls | e];
      simpl; [| reflexivity].
    pose proof (gitHubUrlsArray_fresh parseGitUrl gitHubHostEnv remoteUrls heap)
      as Hfresh.
    destruct (gitHubUrlsArray parseGitUrl gitHubHostEnv remoteUrls heap)
      as [gitHubUrls heap'].
    destruct Hfresh as [_ [Hval [_ Hnodup]]].
    exists gitHubUrls, heap'. rewrite (new_Set_distinct _ Hnodup).
    repeat split; assumption.
  - intros remoteUrl parsed Hparse Hhost.
    unfold getGitHubUrls, gitHubUrlsArray. simpl.
    unfold parseGitHubUrl, parseGitUrl_alloc.
    rewrite Hparse. simpl. rewrite Hhost. simpl Js.filter_Boolean.
    rewrite new_Set_distinct; [reflexivity |].
    simpl. constructor; [simpl; intros [H | []]; lia |].
    constructor; [simpl; tauto | constructor].
Qed.

(** ** The order of the remotes *)

Lemma compare_Lt_lexBefore a :
  forall b, JsString.compare a b = Lt <-> lexBefore a b.
Proof.
  induction a as [| c1 a IH]; intros [| c2 b]; simpl.
  - split; [discriminate | intros H; inversion H].
  - split; [intros _; constructor | reflexivity].
  - split; [discriminate | intros H; inversion H].
  - destruct (N.compare_spec c1 c2) as [E | L | G].
    + subst c2. rewrite IH. split.
      * apply lex_tail.
      * intros H. inversion H; subst; [lia | assumption].
    + split; [intros _; apply lex_head, L | reflexivity].
    + split; [discriminate |].
      intros H. inversion H; subst; lia.
Qed.

Lemma lt_lexBefore a b : Js.lt a b = true <-> lexBefore a b.
Proof.
  rewrite <- compare_Lt_lexBefore. unfold Js.lt, JsString.ltb.
  destruct (JsString.compare a b); split; congruence.
Qed.

Lemma lexBefore_irrefl a : ~ lexBefore a a.
Proof.
  induction a as [| c a IH]; intros H; inversion H; subst.
  - lia.
  - apply IH. assumption.
Qed.

Lemma lexBefore_trans a b c : lexBefore a b -> lexBefore b c -> lexBefore a c.
Proof.
  intros Hab. revert c.
  induction Hab as [c0 s | c1 c2 s1 s2 Hlt | c0 s1 s2 Hab IH];
    intros c Hbc; inversion Hbc; subst.
  - constructor.
  - constructor.
  - apply lex_head. lia.
  - apply lex_head. exact Hlt.
  - apply lex_head. assumption.
  - apply lex_tail. apply IH. assumption.
Qed.

Lemma lexBefore_total a b : a <> b -> Js.lt a b = false -> lexBefore b a.
Proof.
  intros Hne Hlt. apply compare_Lt_lexBefore.
  rewrite JsStringFacts.compare_antisym.
  unfold Js.lt, JsString.ltb in Hlt.
  destruct (JsString.compare a b) eqn:E; simpl.
  - apply JsStringFacts.compare_eq in E. contradiction.
  - discriminate Hlt.
  - reflexivity.
Qed.

Lemma strict_eq_Some a b : Js.strict_eq a b = true <-> b = Some a.
Proof.
  unfold Js.strict_eq. destruct b as [b' |].
  - rewrite JsStringFacts.eqb_eq. split; [intros ->; reflexivity |].
    intros H. injection H as ->. reflexivity.
  - split; discriminate.
Qed.

Lemma preference_bound n : preference n <= 3.
Proof.
  unfold preference.
  repeat match goal with |- context [JsString.eqb ?a ?b] =>
    destruct (JsString.eqb a b) end; lia.
Qed.

Lemma indexOf_preference n :
  Js.indexOf originNamesInLookupOrder n
  = if Nat.eqb (preference n) 3 then (-1)%Z else Z.of_nat (preference n).
Proof.
  unfold Js.indexOf, originNamesInLookupOrder, preference.
  cbn [Js.indexOf_from].
  rewrite (JsStringFacts.eqb_sym "upstream"), (JsStringFacts.eqb_sym "github"),
    (JsStringFacts.eqb_sym "origin").
  repeat match goal with |- context [JsString.eqb n ?b] =>
    destruct (JsString.eqb n b) end; reflexivity.
Qed.

(** Listed names with the same preference are the same name. *)
Lemma preference_listed_inj n1 n2 :
  preference n1 = preference n2 -> preference n1 <> 3 -> n1 = n2.
Proof.
  unfold preference.
  destruct (JsStringFacts.eqb_spec n1 "upstream") as [E1 | _];
  destruct (JsStringFacts.eqb_spec n1 "github") as [E2 | _];
  destruct (JsStringFacts.eqb_spec n1 "origin") as [E3 | _];
  destruct (JsStringFacts.eqb_spec n2 "upstream") as [F1 | _];
  destruct (JsStringFacts.eqb_spec n2 "github") as [F2 | _];
  destruct (JsStringFacts.eqb_spec n2 "origin") as [F3 | _];
  intros H1 H2; try lia; congruence.
Qed.

(** The comparator decides [precedes], and throws exactly on colliding
    entries. *)
Lemma compareRemotes_outcome branchRemote r1 r2 :
  SortSpec.outcome (precedes branchRemote) collide duplicateConfigError
    r1 r2 (compareRemotes branchRemote r1 r2).
Proof.
  unfold compareRemotes.
  destruct (Js.strict_eq (name r1) branchRemote) eqn:B1;
    destruct (Js.strict_eq (name r2) branchRemote) eqn:B2; simpl negb; cbv iota.
  2: { apply SortSpec.outcome_before; [lia |]. apply branch_first.
       - apply strict_eq_Some, B1.
       - intros H. apply strict_eq_Some in H. congruence. }
  2: { apply SortSpec.outcome_after; [lia |]. apply branch_first.
       - apply strict_eq_Some, B2.
       - intros H. apply strict_eq_Some in H. congruence. }
  all: assert (Hbranch : branchRemote = Some (name r1)
                         <-> branchRemote = Some (name r2))
         by (rewrite <- !strict_eq_Some, B1, B2; tauto).
  all: rewrite !indexOf_preference.
  all: pose proof (preference_bound (name r1)) as P1.
  all: pose proof (preference_bound (name r2)) as P2.
  all: destruct (Nat.eqb_spec (preference (name r1)) 3) as [E1 | N1];
       destruct (Nat.eqb_spec (preference (name r2)) 3) as [E2 | N2].
  all: match goal with
       | |- context [negb (Z.eqb ?a ?b)] => destruct (Z.eqb_spec a b) as [Eo | No]
       end; simpl negb; cbv iota.
  all: try (exfalso; lia).
  all: try (simpl Z.eqb; cbv iota).
  (* the preferences differ *)
  all: try match goal with
       | |- SortSpec.outcome _ _ _ _ _ (Js.Normal 1%Z) =>
           apply SortSpec.outcome_after; [lia |];
           apply preferred_first; [tauto | lia]
       | |- SortSpec.outcome _ _ _ _ _ (Js.Normal (-1)%Z) =>
           apply SortSpec.outcome_before; [lia |];
           apply preferred_first; [tauto | lia]
       end.
  all: try match goal with
       | |- context [Z.eqb (Z.of_nat ?p) (-1)] =>
           destruct (Z.eqb_spec (Z.of_nat p) (-1)) as [Em | _]; [lia |]
       end.
  all: try match goal with
       | |- context [Z.eqb (Z.of_nat ?p) (-1)] =>
           destruct (Z.eqb_spec (Z.of_nat p) (-1)) as [Em | _]; [lia |]
       end.
  all: try match goal with
       | |- SortSpec.outcome _ _ _ _ _ (Js.Normal (Z.of_nat ?p - Z.of_nat ?q)%Z) =>
           destruct (Nat.lt_trichotomy p q) as [Hlt | [Heq | Hgt]];
           [ apply SortSpec.outcome_before; [lia |];
             apply preferred_first; [tauto | lia]
           | exfalso; lia
           | apply SortSpec.outcome_after; [lia |];
             apply preferred_first; [tauto | lia] ]
       end.
  (* the preferences agree *)
  all: assert (Hpref : preference (name r1) = preference (name r2)) by lia.
  all: destruct (JsStringFacts.eqb_spec (name r1) (name r2)) as [En | Nn];
       simpl negb; cbv iota.
  all: try (destruct (Js.lt (name r1) (name r2)) eqn:L;
            [ apply SortSpec.outcome_before; [lia |];
              apply name_ascending; [tauto | exact Hpref |];
              apply lt_lexBefore, L
            | apply SortSpec.outcome_after; [lia |];
              apply name_ascending; [tauto | symmetry; exact Hpref |];
              apply lexBefore_total; assumption ]).
  all: destruct (isPush r1) eqn:Q1; destruct (isPush r2) eqn:Q2;
       simpl negb; cbv iota.
  all: try (apply SortSpec.outcome_throw;
            [split; congruence | unfold duplicateConfigError; rewrite Q1; reflexivity]).
  all: try (apply SortSpec.outcome_before; [lia |];
            apply push_first; assumption).
  all: try (apply SortSpec.outcome_after; [lia |];
            apply push_first; [symmetry | |]; assumption).
Qed.

Lemma precedes_trans branchRemote r1 r2 r3 :
  precedes branchRemote r1 r2 -> precedes branchRemote r2 r3 ->
  precedes branchRemote r1 r3.
Proof.
  intros H12 H23.
  destruct H12 as [B1 B2 | B12 P12 | B12 P12 L12 | N12 Q1 Q2];
    destruct H23 as [B2' B3 | B23 P23 | B23 P23 L23 | N23 Q2' Q3].
  - contradiction.
  - apply branch_first; tauto.
  - apply branch_first; tauto.
  - apply branch_first; [exact B1 | rewrite <- N23; exact B2].
  - exfalso. assert (name r1 = name r2) as E by (apply proj2 in B12; specialize (B12 B2'); congruence).
    rewrite E in P12. lia.
  - apply preferred_first; [tauto | lia].
  - apply preferred_first; [tauto | lia].
  - apply preferred_first; [rewrite <- N23; exact B12 | rewrite <- N23; exact P12].
  - exfalso. assert (name r1 = name r2) as E by (apply proj2 in B12; specialize (B12 B2'); congruence).
    rewrite E in L12. exact (lexBefore_irrefl _ L12).
  - apply preferred_first; [tauto | lia].
  - apply name_ascending; [tauto | congruence |].
    eapply lexBefore_trans; eassumption.
  - apply name_ascending; rewrite <- N23; assumption.
  - apply branch_first; [rewrite N12; exact B2' | exact B3].
  - apply preferred_first; rewrite N12; assumption.
  - apply name_ascending; rewrite N12; assumption.
  - congruence.
Qed.

Lemma precedes_not_collide branchRemote r1 r2 :
  precedes branchRemote r1 r2 -> ~ collide r1 r2 /\ ~ collide r2 r1.
Proof.
  assert (H : precedes branchRemote r1 r2 -> name r1 = name r2 ->
              isPush r1 = isPush r2 -> False).
  { intros [B1 B2 | B12 P12 | B12 P12 L12 | N12 Q1 Q2] En Ep.
    - rewrite En in B1. contradiction.
    - rewrite En in P12. lia.
    - rewrite En in L12. exact (lexBefore_irrefl _ L12).
    - congruence. }
  intros Hp. split; intros [En Ep]; apply H; auto.
Qed.

(** ** The keys of the remote entries *)

Lemma match_literal_append literal s rest :
  match_literal literal s = Some rest -> s = literal ++ rest.
Proof.
  revert s. induction literal as [| a literal IH]; intros s H; simpl in H.
  - injection H as ->. reflexivity.
  - destruct s as [| b s]; [discriminate H |].
    destruct (N.eqb_spec a b) as [-> | _]; [| discriminate H].
    simpl. rewrite (IH s H). reflexivity.
Qed.

Lemma match_name_url_unfold rest :
  match_name_url rest =
  let here :=
    if JsString.eqb rest ".pushurl" then Some ("", "pushurl")
    else if JsString.eqb rest ".url" then Some ("", "url")
    else None in
  match rest with
  | EmptyString => here
  | String c rest' =>
      match (if isLineTerminator c then None else match_name_url rest') with
      | Some (group1, group2) => Some (String c group1, group2)
      | None => here
      end
  end.
Proof. destruct rest; reflexivity. Qed.

Lemma match_name_url_groups rest :
  forall group1 group2,
    match_name_url rest = Some (group1, group2) ->
    rest = group1 ++ "." ++ group2 /\ (group2 = "url" \/ group2 = "pushurl").
Proof.
  assert (Hhere : forall r group1 group2,
    (if JsString.eqb r ".pushurl" then Some ("", "pushurl")
     else if JsString.eqb r ".url" then Some ("", "url")
     else None) = Some (group1, group2) ->
    r = group1 ++ "." ++ group2 /\ (group2 = "url" \/ group2 = "pushurl")).
  { intros r group1 group2.
    destruct (JsStringFacts.eqb_spec r ".pushurl") as [-> | _].
    - intros H. injection H as <- <-. split; [reflexivity | right; reflexivity].
    - destruct (JsStringFacts.eqb_spec r ".url") as [-> | _]; [| discriminate].
      intros H. injection H as <- <-. split; [reflexivity | left; reflexivity]. }
  induction rest as [| c rest IH]; intros group1 group2;
    rewrite match_name_url_unfold; cbv zeta.
  - apply Hhere.
  - destruct (isLineTerminator c).
    + apply Hhere.
    + destruct (match_name_url rest) as [[g1 g2] |].
      * intros H. injection H as <- <-.
        destruct (IH g1 g2 eq_refl) as [-> Hg2].
        split; [reflexivity | exact Hg2].
      * apply Hhere.
Qed.

(** A key that matches is rebuilt from its two groups. *)
Lemma regexp_exec_key key group1 group2 :
  regexp_exec key = Some (group1, group2) ->
  key = "remote." ++ group1 ++ "." ++ group2 /\
  (group2 = "url" \/ group2 = "pushurl").
Proof.
  unfold regexp_exec.
  destruct (match_literal "remote." key) as [rest |] eqn:E; [| discriminate].
  intros H. apply match_literal_append in E.
  apply match_name_url_groups in H. destruct H as [-> Hg2].
  split; [exact E | exact Hg2].
Qed.

(** The entry made from a key determines the key. *)
Lemma toRemote_key key value r :
  toRemote (key, value) = Some r ->
  key = "remote." ++ name r ++ "." ++ (if isPush r then "pushurl" else "url")
  /\ url r = value.
Proof.
  unfold toRemote.
  destruct (regexp_exec key) as [[group1 group2] |] eqn:E; [| discriminate].
  intros H. injection H as <-. simpl.
  apply regexp_exec_key in E. destruct E as [-> [-> | ->]]; split; reflexivity.
Qed.

(** Two distinct keys never make colliding entries. *)
Lemma toRemote_collide_same_key key1 value1 key2 value2 r1 r2 :
  toRemote (key1, value1) = Some r1 -> toRemote (key2, value2) = Some r2 ->
  collide r1 r2 -> key1 = key2.
Proof.
  intros H1 H2 [En Ep].
  apply toRemote_key in H1, H2. destruct H1 as [-> _], H2 as [-> _].
  rewrite En, Ep. reflexivity.
Qed.

Lemma in_filter_Boolean {A B} (f : A -> option B) (l : list A) (y : B) :
  In y (Js.filter_Boolean (map f l)) <-> exists x, In x l /\ f x = Some y.
Proof.
  induction l as [| x0 l IH]; simpl.
  - split; [intros [] | intros [x [[] _]]].
  - destruct (f x0) as [y0 |] eqn:E; simpl; rewrite IH; split.
    + intros [<- | [x [Hin Hx]]]; [exists x0 | exists x]; auto.
    + intros [x [[<- | Hin] Hx]]; [left; congruence | right; exists x; auto].
    + intros [x [Hin Hx]]. exists x. auto.
    + intros [x [[<- | Hin] Hx]]; [congruence | exists x; auto].
Qed.

(** In a configuration object, whose keys are pairwise distinct, no two
    extracted entries collide. *)
Lemma extractRemotes_no_collision (config : Config) :
  NoDup (map fst config) ->
  ForallOrdPairs (fun r1 r2 => ~ collide r1 r2) (extractRemotes config).
Proof.
  unfold extractRemotes.
  induction config as [| [key value] config IH]; intros Hnodup; cbn [map].
  - constructor.
  - simpl in Hnodup. apply NoDup_cons_iff in Hnodup.
    destruct Hnodup as [Hnotin Hnodup].
    destruct (toRemote (key, value)) as [r |] eqn:E; cbn [Js.filter_Boolean];
      [| apply IH, Hnodup].
    constructor; [| apply IH, Hnodup].
    apply Forall_forall. intros r' Hin Hcollide.
    apply in_filter_Boolean in Hin. destruct Hin as [[key' value'] [Hin' E']].
    apply Hnotin.
    rewrite (toRemote_collide_same_key _ _ _ _ _ _ E E' Hcollide).
    apply (in_map fst _ _ Hin').
Qed.

(** ** Sorting the remotes *)

Lemma sort_remotes_normal branchRemote remotes sorted :
  Js.sort (compareRemotes branchRemote) remotes = Js.Normal sorted ->
  Permutation remotes sorted /\ StronglySorted (precedes branchRemote) sorted.
Proof.
  apply (JsFacts.sort_normal (compareRemotes branchRemote)
           (precedes branchRemote) collide duplicateConfigError).
  - apply compareRemotes_outcome.
  - apply precedes_trans.
Qed.

Lemma sort_remotes_throw_inv branchRemote remotes :
  forall e,
    Js.sort (compareRemotes branchRemote) remotes = Js.Throw e ->
    twoCollide remotes /\
    exists r, In r remotes /\ duplicateConfigError r e.
Proof.
  induction remotes as [| x rest IH]; intros e H; simpl in H;
    [discriminate H |].
  destruct (Js.sort (compareRemotes branchRemote) rest) as [rest' | e'] eqn:E;
    simpl in H.
  - apply (JsFacts.sort_insert_throw_inv (compareRemotes branchRemote)
             (precedes branchRemote) collide duplicateConfigError
             (compareRemotes_outcome branchRemote)) in H.
    destruct H as [y [Hin [Hcollide Hraised]]].
    apply sort_remotes_normal in E. destruct E as [Hperm _].
    apply (Permutation_in _ (Permutation_sym Hperm)) in Hin.
    split.
    + apply in_split in Hin. destruct Hin as [between [back ->]].
      exists [], x, between, y, back. split; [reflexivity | exact Hcollide].
    + exists x. split; [left; reflexivity | exact Hraised].
  - injection H as ->. destruct (IH e eq_refl) as [Htwo [r [Hin Hr]]].
    split.
    + destruct Htwo as [front [r1 [between [r2 [back [-> Hc]]]]]].
      exists (x :: front), r1, between, r2, back.
      split; [reflexivity | exact Hc].
    + exists r. split; [right; exact Hin | exact Hr].
Qed.

Lemma sort_remotes_throw branchRemote remotes :
  twoCollide remotes ->
  exists e, Js.sort (compareRemotes branchRemote) remotes = Js.Throw e.
Proof.
  induction remotes as [| x rest IH];
    intros [front [r1 [between [r2 [back [Heq Hc]]]]]].
  - destruct front; discriminate Heq.
  - simpl.
    destruct (Js.sort (compareRemotes branchRemote) rest) as [rest' | e'] eqn:E;
      simpl; [| exists e'; reflexivity].
    destruct front as [| f front]; simpl in Heq; injection Heq as Hx Hrest.
    + apply sort_remotes_normal in E. destruct E as [Hperm Hsorted].
      rewrite Hx.
      apply (JsFacts.sort_insert_throw (compareRemotes branchRemote)
               (precedes branchRemote) collide duplicateConfigError
               (compareRemotes_outcome branchRemote)
               (precedes_trans branchRemote)
               (precedes_not_collide branchRemote) r1 rest' r2 Hsorted);
        [| exact Hc].
      apply (Permutation_in _ Hperm). rewrite Hrest.
      apply in_or_app. right. left. reflexivity.
    + exfalso.
      destruct IH as [e He];
        [exists front, r1, between, r2, back; split; [exact Hrest | exact Hc] |].
      discriminate He.
Qed.

Lemma no_collision_not_twoCollide remotes :
  ForallOrdPairs (fun r1 r2 => ~ collide r1 r2) remotes -> ~ twoCollide remotes.
Proof.
  intros Hpairs [front [r1 [between [r2 [back [-> Hc]]]]]].
  induction front as [| f front IH]; simpl in Hpairs;
    inversion Hpairs as [| a l Hall Hrest]; subst.
  - rewrite Forall_forall in Hall.
    apply (Hall r2); [| exact Hc]. apply in_or_app. right. left. reflexivity.
  - apply IH, Hrest.
Qed.

(** A list that is sorted for [precedes] is determined by its elements:
    whatever the sorting algorithm, its result is the one of [Js.sort]. *)
Lemma sorted_remotes_unique branchRemote (l1 : list Remote) :
  forall l2,
    Permutation l1 l2 ->
    StronglySorted (precedes branchRemote) l1 ->
    StronglySorted (precedes branchRemote) l2 ->
    l1 = l2.
Proof.
  assert (Hirrefl : forall r, ~ precedes branchRemote r r).
  { intros r Hp. apply (proj1 (precedes_not_collide _ _ _ Hp)).
    split; reflexivity. }
  induction l1 as [| x t1 IH]; intros l2 Hperm Hs1 Hs2.
  - apply Permutation_nil in Hperm. symmetry. exact Hperm.
  - destruct l2 as [| y t2];
      [apply Permutation_sym, Permutation_nil in Hperm; discriminate Hperm |].
    apply StronglySorted_inv in Hs1, Hs2.
    destruct Hs1 as [Hs1 Hall1], Hs2 as [Hs2 Hall2].
    rewrite Forall_forall in Hall1, Hall2.
    assert (x = y) as ->.
    { assert (Hx : In x (y :: t2))
        by (apply (Permutation_in _ Hperm); left; reflexivity).
      assert (Hy : In y (x :: t1))
        by (apply (Permutation_in _ (Permutation_sym Hperm)); left; reflexivity).
      destruct Hx as [-> | Hx]; [reflexivity |].
      destruct Hy as [-> | Hy]; [reflexivity |].
      exfalso. apply (Hirrefl x).
      eapply precedes_trans; [apply Hall1, Hy | apply Hall2, Hx]. }
    f_equal. apply IH; [| exact Hs1 | exact Hs2].
    eapply Permutation_cons_inv, Hperm.
Qed.

(** On a configuration object [getRemoteUrls] returns. *)
Lemma sortedRemotes_total (config : Config) branchRemote :
  NoDup (map fst config) ->
  exists remotes, sortedRemotes config branchRemote = Js.Normal remotes.
Proof.
  intros Hnodup. unfold sortedRemotes.
  destruct (Js.sort (compareRemotes branchRemote) (extractRemotes config))
    as [remotes | e] eqn:E; [exists remotes; reflexivity |].
  exfalso. apply sort_remotes_throw_inv in E. destruct E as [Htwo _].
  exact (no_collision_not_twoCollide _
           (extractRemotes_no_collision config Hnodup) Htwo).
Qed.

(** The order on the test repository. *)
Example getRemoteUrls_testConfig :
  getRemoteUrls testConfig (Some "remote2")
  = Js.Normal
      [ "https://github.com/branchpush/hub-ci-status.git";
        "https://github.com/branch/hub-ci-status.git";
        "https://github.com/upstream/hub-ci-status.git";
        "https://github.com/github/hub-ci-status.git";
        "https://github.com/origin/hub-ci-status.git";
        "https://github.com/zzz/hub-ci-status.git";
        "git@github.com:kevinoid/hub-ci-status.git" ].
Proof. reflexivity. Qed.

(** C7: [getRemoteUrls] throws exactly when two extracted entries collide
    on name and push flag, and what it throws is the duplicate-config error
    of one of the entries; hence, for a configuration object, the error is
    reachable exactly if two distinct keys can make colliding entries. *)
Theorem duplicate_config_iff_collision
  (config : Config) (branchRemote : option string) :
  (twoCollide (extractRemotes config) <->
   exists e, getRemoteUrls config branchRemote = Js.Throw e) /\
  (forall e,
     getRemoteUrls config branchRemote = Js.Throw e ->
     exists r, In r (extractRemotes config) /\ duplicateConfigError r e) /\
  (NoDup (map fst config) ->
   ((exists e, getRemoteUrls config branchRemote = Js.Throw e) <->
    exists key1 value1 key2 value2 r1 r2,
      In (key1, value1) config /\ In (key2, value2) config /\
      key1 <> key2 /\
      toRemote (key1, value1) = Some r1 /\
      toRemote (key2, value2) = Some r2 /\
      collide r1 r2)).
Proof.
  assert (Hthrow : forall e,
    getRemoteUrls config branchRemote = Js.Throw e ->
    Js.sort (compareRemotes branchRemote) (extractRemotes config) = Js.Throw e).
  { unfold getRemoteUrls, sortedRemotes. intros e H.
    destruct (Js.sort (compareRemotes branchRemote) (extractRemotes config));
      simpl in H; [discriminate H | injection H as ->; reflexivity]. }
  split; [split | split].
  - intros Htwo. apply (sort_remotes_throw branchRemote) in Htwo.
    destruct Htwo as [e He]. exists e.
    unfold getRemoteUrls, sortedRemotes. rewrite He. reflexivity.
  - intros [e He]. apply Hthrow, sort_remotes_throw_inv in He. tauto.
  - intros e He. apply Hthrow, sort_remotes_throw_inv in He. tauto.
  - intros Hnodup. split.
    + intros [e He]. exfalso.
      destruct (sortedRemotes_total config branchRemote Hnodup) as [remotes E].
      apply Hthrow in He. unfold sortedRemotes in E. congruence.
    + intros [key1 [value1 [key2 [value2 [r1 [r2 H]]]]]].
      destruct H as [_ [_ [Hne [H1 [H2 Hc]]]]].
      destruct (Hne (toRemote_collide_same_key _ _ _ _ _ _ H1 H2 Hc)).
Qed.

(** ** The error of [getProjectName] *)

(** C3 (the code departs from the claim): whatever [getProjectName] throws
    is a plain [Error], whose name is [Error] and not [UnknownProjectError];
    in particular, on a configuration with no remote entry it throws the
    plain [Error] with the message of its last statement. *)
Theorem getProjectName_throws_plain_Error
  (parseGitUrl : string -> Js.completion URL) (gitHubHostEnv : option string)
  (branch : option string) (config : Config) (heap : Js.Ref) :
  (forall e,
     getProjectName parseGitUrl gitHubHostEnv branch config heap = Js.Throw e ->
     Js.name e = "Error" /\ Js.name e <> "UnknownProjectError") /\
  (extractRemotes config = [] ->
   getProjectName parseGitUrl gitHubHostEnv branch config heap
   = Js.Throw
       {| Js.name := "Error";
          Js.message :=
            "Unable to determine GitHub project name: No GitHub remote URLs recognized."
       |}) /\
  getProjectName parseGitUrl gitHubHostEnv branch [] heap
  = Js.Throw
      {| Js.name := "Error";
         Js.message :=
           "Unable to determine GitHub project name: No GitHub remote URLs recognized."
      |}.
Proof.
  split; [| split].
  - intros e. unfold getProjectName.
    set (branchRemote := match branch with
                         | Some b => _
                         | None => None
                         end).
    unfold getGitHubUrls, getRemoteUrls, sortedRemotes.
    destruct (Js.sort (compareRemotes branchRemote) (extractRemotes config))
      as [remotes | e'] eqn:E; simpl.
    + destruct (gitHubUrlsArray parseGitUrl gitHubHostEnv (map url remotes) heap)
        as [gitHubUrls heap']. simpl.
      destruct (firstProject (Js.new_Set gitHubUrls)); [discriminate |].
      intros H. injection H as <-. simpl. split; [reflexivity | discriminate].
    + intros H. injection H as <-.
      apply sort_remotes_throw_inv in E. destruct E as [_ [r [_ ->]]].
      simpl. split; [reflexivity | discriminate].
  - intros Hnone. unfold getProjectName, getGitHubUrls, getRemoteUrls,
      sortedRemotes. rewrite Hnone. reflexivity.
  - reflexivity.
Qed.

(** ** The scenarios of [test/lib/github-utils.js] *)

Example project_of_https_remote :
  getProjectName parseTestUrl None (Some "main")
    [("remote.remote1.url", "https://github.com/kevinoid/hub-ci-status.git")] 0
  = Js.Normal ("kevinoid", "hub-ci-status").
Proof. reflexivity. Qed.

Example project_of_remote_without_extension :
  getProjectName parseTestUrl None (Some "main")
    [("remote.remote1.url", "https://github.com/kevinoid/hub-ci-status")] 0
  = Js.Normal ("kevinoid", "hub-ci-status").
Proof. reflexivity. Qed.

Example project_of_short_remote :
  getProjectName parseTestUrl None (Some "main")
    [("remote.remote1.url", "git@github.com:kevinoid/hub-ci-status.git")] 0
  = Js.Normal ("kevinoid", "hub-ci-status").
Proof. reflexivity. Qed.

Example project_of_subdomain_remote :
  getProjectName parseTestUrl None (Some "main")
    [("remote.remote1.url",
      "https://example.github.com/kevinoid/hub-ci-status.git")] 0
  = Js.Normal ("kevinoid", "hub-ci-status").
Proof. reflexivity. Qed.

Example no_project_of_other_host :
  getProjectName parseTestUrl None (Some "main")
    [("remote.remote1.url",
      "https://github.com.example.com/kevinoid/hub-ci-status.git")] 0
  = Js.Throw
      (Js.new_Error
         "Unable to determine GitHub project name: No GitHub remote URLs recognized.").
Proof. reflexivity. Qed.

Example no_project_of_invalid_remote :
  getProjectName parseTestUrl None (Some "main")
    [("remote.remote1.url", "bad_:invalid")] 0
  = Js.Throw
      (Js.new_Error
         "Unable to determine GitHub project name: No GitHub remote URLs recognized.").
Proof. reflexivity. Qed.

Example no_project_of_one_path_part :
  getProjectName parseTestUrl None (Some "main")
    [("remote.remote1.url", "https://github.com/foo.git")] 0
  = Js.Throw
      (Js.new_Error
         "Unable to determine GitHub project name: No GitHub remote URLs recognized.").
Proof. reflexivity. Qed.

Example project_of_pushurl_of_branch_remote :
  getProjectName parseTestUrl None (Some "main") testConfig 0
  = Js.Normal ("branchpush", "hub-ci-status").
Proof. reflexivity. Qed.

Example project_of_upstream_without_branch :
  getProjectName parseTestUrl None None testConfig 0
  = Js.Normal ("upstream", "hub-ci-status").
Proof. reflexivity. Qed.

(** The last statement of the comparator, on a list of entries that
    repeats a key. *)
Example duplicate_key_throws :
  getRemoteUrls
    [("remote.origin.url", "a"); ("remote.origin.pushurl", "b");
     ("remote.origin.url", "c")] None
  = Js.Throw (Js.new_Error "Duplicate config 'remote.origin.url'").
Proof. reflexivity. Qed.

(** ** Names beyond ASCII *)

(** A name outside the basic plane starts with a surrogate, which is below
    the code units U+E000 to U+FFFF: it sorts before a name in that
    range. *)
Example astral_name_sorts_first :
  getRemoteUrls
    [("remote.～.url", "fullwidth"); ("remote.😀.url", "astral")] None
  = Js.Normal ["astral"; "fullwidth"].
Proof. reflexivity. Qed.

(** A key whose name holds the line separator U+2028 makes no entry. *)
Example line_separator_in_name :
  toRemote ("remote.a" ++ String 0x2028 "b.url", "https://github.com/o/r")
  = None /\
  toRemote ("remote.a.b.url", "https://github.com/o/r")
  = Some (mkRemote "a.b" false "https://github.com/o/r").
Proof. split; reflexivity. Qed.

(** ** Which keys make a remote entry *)

Lemma match_literal_prefix literal rest :
  match_literal literal (literal ++ rest) = Some rest.
Proof.
  induction literal as [| a literal IH]; simpl.
  - reflexivity.
  - rewrite N.eqb_refl. exact IH.
Qed.

Lemma match_name_url_no_terminator rest :
  forall group1 group2,
    match_name_url rest = Some (group1, group2) ->
    hasLineTerminator group1 = false.
Proof.
  assert (Hhere : forall r group1 group2,
    (if JsString.eqb r ".pushurl" then Some ("", "pushurl")
     else if JsString.eqb r ".url" then Some ("", "url")
     else None) = Some (group1, group2) ->
    hasLineTerminator group1 = false).
  { intros r group1 group2.
    destruct (JsString.eqb r ".pushurl");
      [| destruct (JsString.eqb r ".url"); [| discriminate]];
      intros H; injection H as <- <-; reflexivity. }
  induction rest as [| c rest IH]; intros group1 group2;
    rewrite match_name_url_unfold; cbv zeta.
  - apply Hhere.
  - destruct (isLineTerminator c) eqn:Ec.
    + apply Hhere.
    + destruct (match_name_url rest) as [[g1 g2] |].
      * intros H. injection H as <- <-. simpl. rewrite Ec.
        apply (IH g1 g2 eq_refl).
      * apply Hhere.
Qed.

Lemma match_name_url_complete group1 group2 :
  hasLineTerminator group1 = false ->
  group2 = "url" \/ group2 = "pushurl" ->
  match_name_url (group1 ++ "." ++ group2) = Some (group1, group2).
Proof.
  intros Hno Hg2. induction group1 as [| c group1 IH].
  - destruct Hg2 as [-> | ->]; reflexivity.
  - simpl in Hno. apply orb_false_iff in Hno. destruct Hno as [Hc Hno].
    change (String c group1 ++ "." ++ group2)
      with (String c (group1 ++ "." ++ group2)).
    rewrite match_name_url_unfold. cbv zeta.
    rewrite Hc, (IH Hno). reflexivity.
Qed.

Lemma toRemote_characterised (key value : string) (r : Remote) :
  toRemote (key, value) = Some r <->
  key = "remote." ++ name r ++ "."
        ++ (if isPush r then "pushurl" else "url") /\
  url r = value /\
  hasLineTerminator (name r) = false.
Proof.
  split.
  - intros H. destruct (toRemote_key _ _ _ H) as [Hkey Hurl].
    split; [exact Hkey | split; [exact Hurl |]].
    unfold toRemote in H.
    destruct (regexp_exec key) as [[group1 group2] |] eqn:E; [| discriminate H].
    injection H as <-. simpl. unfold regexp_exec in E.
    destruct (match_literal "remote." key); [| discriminate E].
    apply (match_name_url_no_terminator _ _ _ E).
  - intros [-> [<- Hno]]. unfold toRemote, regexp_exec.
    rewrite match_literal_prefix.
    rewrite match_name_url_complete;
      [| exact Hno | destruct (isPush r); auto].
    destruct r as [n p u]. simpl. destruct p; reflexivity.
Qed.

(** X9: a key makes a remote entry exactly when it is [remote.], a name
    without line terminator (line feed, carriage return, U+2028, U+2029),
    and [.url] or [.pushurl]; the name may be empty and may contain dots,
    and the entry carries the name, whether the key ends in [.pushurl], and
    the value. *)
Theorem toRemote_iff (key value : string) (r : Remote) :
  toRemote (key, value) = Some r <->
  key = "remote." ++ name r ++ "."
        ++ (if isPush r then "pushurl" else "url") /\
  url r = value /\
  hasLineTerminator (name r) = false.
Proof. exact (toRemote_characterised key value r). Qed.

(** ** The comparator is consistent *)

Lemma precedes_asym branchRemote r1 r2 :
  precedes branchRemote r1 r2 -> ~ precedes branchRemote r2 r1.
Proof.
  intros H12 H21.
  apply (proj1 (precedes_not_collide _ _ _
                  (precedes_trans _ _ _ _ H12 H21))).
  split; reflexivity.
Qed.

(** X10: the comparator of [getRemoteUrls] never answers 0; when it
    answers a number for a pair, it answers a number of the opposite sign
    for the swapped pair; when it throws for a pair, it throws the same
    error for the swapped pair; and its negative answers are transitive. *)
Theorem compareRemotes_consistent
  (branchRemote : option string) (r1 r2 r3 : Remote) :
  compareRemotes branchRemote r1 r2 <> Js.Normal 0%Z /\
  (forall z,
     compareRemotes branchRemote r1 r2 = Js.Normal z ->
     exists z',
       compareRemotes branchRemote r2 r1 = Js.Normal z' /\
       ((z < 0)%Z <-> (0 < z')%Z)) /\
  (forall e,
     compareRemotes branchRemote r1 r2 = Js.Throw e ->
     compareRemotes branchRemote r2 r1 = Js.Throw e) /\
  (forall z z',
     compareRemotes branchRemote r1 r2 = Js.Normal z -> (z < 0)%Z ->
     compareRemotes branchRemote r2 r3 = Js.Normal z' -> (z' < 0)%Z ->
     exists z'',
       compareRemotes branchRemote r1 r3 = Js.Normal z'' /\ (z'' < 0)%Z).
Proof.
  split; [| split; [| split]].
  - destruct (compareRemotes_outcome branchRemote r1 r2)
      as [z Hz _ | z Hz _ | e _ _]; intros H; try discriminate H;
      injection H as ->; lia.
  - intros z H12.
    destruct (compareRemotes_outcome branchRemote r1 r2)
      as [z1 Hz1 Hp | z1 Hz1 Hp | e _ _]; [| | discriminate H12];
      injection H12 as ->;
      destruct (compareRemotes_outcome branchRemote r2 r1)
        as [z2 Hz2 Hq | z2 Hz2 Hq | e Hsame _].
    + destruct (precedes_asym _ _ _ Hp Hq).
    + exists z2. split; [reflexivity | lia].
    + destruct (proj2 (precedes_not_collide _ _ _ Hp) Hsame).
    + exists z2. split; [reflexivity | lia].
    + destruct (precedes_asym _ _ _ Hp Hq).
    + destruct (proj1 (precedes_not_collide _ _ _ Hp) Hsame).
  - intros e H12.
    destruct (compareRemotes_outcome branchRemote r1 r2)
      as [z1 _ _ | z1 _ _ | e1 [Hn Hp] Hraised]; try discriminate H12.
    injection H12 as ->.
    destruct (compareRemotes_outcome branchRemote r2 r1)
      as [z2 _ Hq | z2 _ Hq | e2 _ Hraised2].
    + destruct (proj2 (precedes_not_collide _ _ _ Hq)). split; assumption.
    + destruct (proj1 (precedes_not_collide _ _ _ Hq)). split; assumption.
    + unfold duplicateConfigError in *. rewrite Hraised, Hraised2, Hn, Hp.
      reflexivity.
  - intros z z' H12 Hz H23 Hz'.
    destruct (compareRemotes_outcome branchRemote r1 r2)
      as [z1 _ Hp | z1 Hz1 _ | e _ _]; try discriminate H12;
      [| injection H12 as ->; lia].
    destruct (compareRemotes_outcome branchRemote r2 r3)
      as [z2 _ Hq | z2 Hz2 _ | e _ _]; try discriminate H23;
      [| injection H23 as ->; lia].
    pose proof (precedes_trans _ _ _ _ Hp Hq) as H13.
    destruct (compareRemotes_outcome branchRemote r1 r3)
      as [z3 Hz3 _ | z3 _ Hr | e Hsame _].
    + exists z3. split; [reflexivity | exact Hz3].
    + destruct (precedes_asym _ _ _ H13 Hr).
    + destruct (proj1 (precedes_not_collide _ _ _ H13) Hsame).
Qed.

(** ** The order of the configuration does not matter *)

Lemma filter_Boolean_Permutation {A B} (f : A -> option B) (l1 l2 : list A) :
  Permutation l1 l2 ->
  Permutation (Js.filter_Boolean (map f l1)) (Js.filter_Boolean (map f l2)).
Proof.
  induction 1 as [| x l1 l2 _ IH | x y l | l1 l2 l3 _ IH1 _ IH2]; simpl.
  - constructor.
  - destruct (f x); [apply perm_skip |]; exact IH.
  - destruct (f x), (f y); try apply Permutation_refl. apply perm_swap.
  - eapply Permutation_trans; eassumption.
Qed.

(** X11: the result of [getRemoteUrls] on a configuration object does not
    depend on the order in which its entries are listed. *)
Theorem getRemoteUrls_order_independent
  (config1 config2 : Config) (branchRemote : option string) :
  NoDup (map fst config1) ->
  Permutation config1 config2 ->
  getRemoteUrls config1 branchRemote = getRemoteUrls config2 branchRemote.
Proof.
  intros Hnodup Hperm.
  assert (Hnodup2 : NoDup (map fst config2))
    by (eapply Permutation_NoDup; [apply Permutation_map, Hperm | exact Hnodup]).
  destruct (sortedRemotes_total config1 branchRemote Hnodup) as [l1 E1].
  destruct (sortedRemotes_total config2 branchRemote Hnodup2) as [l2 E2].
  unfold getRemoteUrls. rewrite E1, E2. simpl.
  destruct (sort_remotes_normal _ _ _ E1) as [P1 S1].
  destruct (sort_remotes_normal _ _ _ E2) as [P2 S2].
  rewrite (sorted_remotes_unique branchRemote l1 l2); [reflexivity | | | ];
    [| exact S1 | exact S2].
  eapply Permutation_trans; [apply Permutation_sym, P1 |].
  eapply Permutation_trans; [| exact P2].
  apply filter_Boolean_Permutation, Hperm.
Qed.

Lemma getRemoteUrls_order_independent_witness :
  getRemoteUrls testConfig (Some "remote2")
  = getRemoteUrls (rev testConfig) (Some "remote2").
Proof.
  apply getRemoteUrls_order_independent.
  - repeat (constructor;
            [simpl; intros H;
             repeat (destruct H as [H | H]; [discriminate H |]); exact H |]).
    constructor.
  - apply Permutation_rev.
Defined.

(** ** Paths and projects *)

Lemma split_unfold sep s :
  Js.split sep s =
  match s with
  | EmptyString => [""]
  | String c s' =>
      if N.eqb c sep then "" :: Js.split sep s'
      else match Js.split sep s' with
           | part :: parts => String c part :: parts
           | [] => [String c ""]
           end
  end.
Proof. destruct s; reflexivity. Qed.

Lemma hasChar_append c s1 s2 :
  hasChar c (s1 ++ s2) = hasChar c s1 || hasChar c s2.
Proof.
  induction s1 as [| c1 s1 IH]; simpl; [reflexivity |].
  rewrite IH, orb_assoc. reflexivity.
Qed.

Lemma split_without_separator sep s :
  hasChar sep s = false -> Js.split sep s = [s].
Proof.
  induction s as [| c s IH]; intros H; rewrite split_unfold.
  - reflexivity.
  - simpl in H. apply orb_false_iff in H. destruct H as [Hc Hs].
    rewrite Hc, (IH Hs). reflexivity.
Qed.

Lemma split_at_separator sep s rest :
  hasChar sep s = false ->
  Js.split sep (s ++ String sep rest) = s :: Js.split sep rest.
Proof.
  induction s as [| c s IH]; intros H.
  - change ("" ++ String sep rest) with (String sep rest).
    rewrite split_unfold, N.eqb_refl. reflexivity.
  - simpl in H. apply orb_false_iff in H. destruct H as [Hc Hs].
    change (String c s ++ String sep rest)
      with (String c (s ++ String sep rest)).
    rewrite split_unfold, Hc, (IH Hs). reflexivity.
Qed.

Lemma split_parts_without_separator sep s :
  Forall (fun part => hasChar sep part = false) (Js.split sep s).
Proof.
  induction s as [| c s IH]; rewrite split_unfold.
  - repeat constructor.
  - destruct (N.eqb c sep) eqn:Ec.
    + constructor; [reflexivity | exact IH].
    + destruct (Js.split sep s) as [| part parts].
      * repeat constructor. simpl. rewrite Ec. reflexivity.
      * inversion IH as [| ? ? Hpart Hparts]; subst.
        constructor; [| exact Hparts]. simpl. rewrite Ec. exact Hpart.
Qed.

(** Joining the parts of a split with the separator gives the string
    back. *)
Lemma join_split sep s :
  Js.join (String sep "") (Js.split sep s) = s.
Proof.
  unfold Js.join. induction s as [| c s IH]; rewrite split_unfold.
  - reflexivity.
  - destruct (N.eqb_spec c sep) as [-> | _].
    + destruct (Js.split sep s) as [| part parts] eqn:E.
      * rewrite split_unfold in E. destruct s as [| a s]; [discriminate E |].
        destruct (N.eqb a sep); [discriminate E |].
        destruct (Js.split sep s); discriminate E.
      * change (JsString.concat (String sep "") ("" :: part :: parts))
          with ("" ++ String sep ""
                ++ JsString.concat (String sep "") (part :: parts)).
        rewrite IH. reflexivity.
    + destruct (Js.split sep s) as [| part parts].
      * simpl in IH. subst s. reflexivity.
      * rewrite <- IH. destruct parts; reflexivity.
Qed.

(** X12: the loop body of [getProjectName] returns owner and repository
    exactly for the paths [/owner/repo.git] and, when [repo] does not itself
    end with [.git], [/owner/repo], where neither is empty nor contains a
    slash. *)
Theorem projectOfUrl_iff_path (remoteUrl : URL) (owner repo : string) :
  projectOfUrl remoteUrl = Some (owner, repo) <->
  owner <> "" /\ repo <> "" /\
  hasChar Js.slash owner = false /\ hasChar Js.slash repo = false /\
  (pathname remoteUrl = "/" ++ owner ++ "/" ++ repo ++ ".git" \/
   pathname remoteUrl = "/" ++ owner ++ "/" ++ repo /\
   Js.endsWith repo ".git" = false).
Proof.
  rewrite projectOfUrl_shape. unfold hasProjectShape. split.
  - intros [last [Hsplit [Howner [Hstrip Hrepo]]]].
    pose proof (split_parts_without_separator Js.slash (pathname remoteUrl)) as Hparts.
    pose proof (join_split Js.slash (pathname remoteUrl)) as Hjoin.
    rewrite Hsplit in Hparts, Hjoin.
    inversion Hparts as [| ? ? _ Hparts']; subst.
    inversion Hparts' as [| ? ? Ho Hparts'']; subst.
    inversion Hparts'' as [| ? ? Hl _]; subst.
    unfold Js.join in Hjoin. cbn [JsString.concat] in Hjoin.
    split; [exact Howner | split; [exact Hrepo | split; [exact Ho |]]].
    destruct Hstrip as [repo Hlast | Hnot].
    + subst last. rewrite hasChar_append in Hl.
      apply orb_false_iff in Hl. destruct Hl as [Hl _].
      split; [exact Hl |]. left. rewrite <- Hjoin. reflexivity.
    + split; [exact Hl |]. right. split; [rewrite <- Hjoin; reflexivity |].
      destruct (Js.endsWith last ".git") eqn:E; [| reflexivity].
      apply JsFacts.endsWith_spec in E. destruct E as [pre E].
      destruct (Hnot pre E).
  - intros [Howner [Hrepo [Ho [Hr Hpath]]]].
    assert (Hsplit : forall last,
      hasChar Js.slash last = false ->
      Js.split Js.slash ("/" ++ owner ++ "/" ++ last) = [""; owner; last]).
    { intros last Hl.
      change ("/" ++ owner ++ "/" ++ last)
        with ("" ++ String Js.slash (owner ++ String Js.slash last)).
      rewrite split_at_separator by reflexivity.
      rewrite split_at_separator by exact Ho.
      rewrite split_without_separator by exact Hl. reflexivity. }
    destruct Hpath as [Hpath | [Hpath Hends]]; rewrite Hpath.
    + exists (repo ++ ".git"). split; [| split; [exact Howner | split]].
      * apply Hsplit. rewrite hasChar_append, Hr. reflexivity.
      * apply stripped. reflexivity.
      * exact Hrepo.
    + exists repo. split; [| split; [exact Howner | split]].
      * apply Hsplit, Hr.
      * apply untouched. intros pre Hpre.
        assert (Js.endsWith repo ".git" = true)
          by (apply JsFacts.endsWith_spec; exists pre; exact Hpre).
        congruence.
      * exact Hrepo.
Qed.

(** ** What [getProjectName] resolves to *)

Section ResolutionFacts.
Variable parseGitUrl : string -> Js.completion URL.
Variable gitHubHostEnv : option string.

Lemma projectOfRemoteUrl_Some remoteUrl project :
  projectOfRemoteUrl parseGitUrl gitHubHostEnv remoteUrl = Some project <->
  exists parsed,
    parseGitUrl remoteUrl = Js.Normal parsed /\
    isGitHubHost gitHubHostEnv (hostname parsed) = true /\
    projectOfUrl parsed = Some project.
Proof.
  unfold projectOfRemoteUrl. split.
  - destruct (parseGitUrl remoteUrl) as [parsed | e]; [| discriminate].
    destruct (isGitHubHost gitHubHostEnv (hostname parsed)) eqn:E;
      [| discriminate].
    intros H. exists parsed. auto.
  - intros [parsed [-> [-> H]]]. exact H.
Qed.

(** The loop over the candidates finds what the remote URLs stand for. *)
Lemma firstProject_gitHubUrlsArray remoteUrls :
  forall heap,
    firstProject
      (fst (gitHubUrlsArray parseGitUrl gitHubHostEnv remoteUrls heap))
    = firstProjectOfUrls parseGitUrl gitHubHostEnv remoteUrls.
Proof.
  unfold gitHubUrlsArray.
  induction remoteUrls as [| remoteUrl rest IH]; intros heap; simpl.
  - reflexivity.
  - unfold parseGitHubUrl at 1, parseGitUrl_alloc, projectOfRemoteUrl.
    destruct (parseGitUrl remoteUrl) as [parsed | err]; simpl Js.value.
    + specialize (IH (S heap)).
      destruct (isGitHubHost gitHubHostEnv (hostname parsed));
        destruct (Js.map_alloc (parseGitHubUrl parseGitUrl gitHubHostEnv)
                    rest (S heap)) as [objs heap'];
        simpl in *; rewrite IH; reflexivity.
    + specialize (IH heap).
      destruct (Js.map_alloc (parseGitHubUrl parseGitUrl gitHubHostEnv)
                  rest heap) as [objs heap'].
      simpl in *. exact IH.
Qed.

Lemma getProjectName_resolution branch config heap :
  getProjectName parseGitUrl gitHubHostEnv branch config heap
  = match getRemoteUrls config (branchRemoteOf branch config) with
    | Js.Normal remoteUrls =>
        match firstProjectOfUrls parseGitUrl gitHubHostEnv remoteUrls with
        | Some project => Js.Normal project
        | None => Js.Throw noRemoteRecognized
        end
    | Js.Throw e => Js.Throw e
    end.
Proof.
  unfold getProjectName, getGitHubUrls.
  change (match branch with
          | Some b =>
              if JsString.eqb b "" then Some b
              else config_get config ("branch." ++ b ++ ".remote")
          | None => None
          end) with (branchRemoteOf branch config).
  destruct (getRemoteUrls config (branchRemoteOf branch config))
    as [remoteUrls | e]; simpl; [| reflexivity].
  pose proof (gitHubUrlsArray_fresh parseGitUrl gitHubHostEnv remoteUrls heap)
    as Hfresh.
  pose proof (firstProject_gitHubUrlsArray remoteUrls heap) as Hfirst.
  destruct (gitHubUrlsArray parseGitUrl gitHubHostEnv remoteUrls heap)
    as [gitHubUrls heap'].
  destruct Hfresh as [_ [_ [_ Hnodup]]]. simpl in *.
  rewrite (new_Set_distinct _ Hnodup), Hfirst. reflexivity.
Qed.

Lemma firstProjectOfUrls_Some remoteUrls project :
  firstProjectOfUrls parseGitUrl gitHubHostEnv remoteUrls = Some project ->
  exists remoteUrl,
    In remoteUrl remoteUrls /\
    projectOfRemoteUrl parseGitUrl gitHubHostEnv remoteUrl = Some project.
Proof.
  induction remoteUrls as [| u rest IH]; simpl; [discriminate |].
  destruct (projectOfRemoteUrl parseGitUrl gitHubHostEnv u) as [p |] eqn:E.
  - intros H. injection H as <-. exists u. auto.
  - intros H. destruct (IH H) as [u' [Hin Hu']]. exists u'. auto.
Qed.

Lemma firstProjectOfUrls_None remoteUrls :
  firstProjectOfUrls parseGitUrl gitHubHostEnv remoteUrls = None <->
  forall remoteUrl,
    In remoteUrl remoteUrls ->
    projectOfRemoteUrl parseGitUrl gitHubHostEnv remoteUrl = None.
Proof.
  induction remoteUrls as [| u rest IH]; simpl.
  - split; [intros _ u [] | reflexivity].
  - destruct (projectOfRemoteUrl parseGitUrl gitHubHostEnv u) as [p |] eqn:E.
    + split; [discriminate |]. intros H.
      specialize (H u (or_introl eq_refl)). congruence.
    + rewrite IH. split.
      * intros H u' [<- | Hin]; [exact E | apply H, Hin].
      * intros H u' Hin. apply H. right. exact Hin.
Qed.

Lemma firstProjectOfUrls_skip skipped remoteUrl rest project :
  (forall u, In u skipped ->
     projectOfRemoteUrl parseGitUrl gitHubHostEnv u = None) ->
  projectOfRemoteUrl parseGitUrl gitHubHostEnv remoteUrl = Some project ->
  firstProjectOfUrls parseGitUrl gitHubHostEnv
    (skipped ++ remoteUrl :: rest)%list = Some project.
Proof.
  intros Hskip Hu. induction skipped as [| u skipped IH]; simpl.
  - rewrite Hu. reflexivity.
  - rewrite (Hskip u (or_introl eq_refl)). apply IH.
    intros u' Hin. apply Hskip. right. exact Hin.
Qed.

(** The remote URLs are the values of the remote entries. *)
Lemma getRemoteUrls_values config branchRemote remoteUrls :
  getRemoteUrls config branchRemote = Js.Normal remoteUrls ->
  exists remotes,
    remoteUrls = map url remotes /\
    Permutation (extractRemotes config) remotes /\
    StronglySorted (precedes branchRemote) remotes.
Proof.
  unfold getRemoteUrls.
  destruct (sortedRemotes config branchRemote) as [remotes | e] eqn:E;
    simpl; [| discriminate].
  intros H. injection H as <-. exists remotes.
  destruct (sort_remotes_normal _ _ _ E) as [Hperm Hsorted]. auto.
Qed.

Lemma in_extractRemotes config r :
  In r (extractRemotes config) <->
  exists key, In (key, url r) config /\ toRemote (key, url r) = Some r.
Proof.
  unfold extractRemotes. rewrite in_filter_Boolean. split.
  - intros [[key value] [Hin H]]. exists key.
    destruct (toRemote_key _ _ _ H) as [_ <-]. auto.
  - intros [key [Hin H]]. exists (key, url r). auto.
Qed.

(** X13: a project that [getProjectName] returns is the project of a
    remote entry of the configuration: the key of the entry is a remote URL
    key, its value parses, the host of the parsed URL passes the host filter
    and its path has the shape of that project. *)
Theorem getProjectName_sound
  (branch : option string) (config : Config) (heap : Js.Ref)
  (project : string * string) :
  getProjectName parseGitUrl gitHubHostEnv branch config heap
    = Js.Normal project ->
  exists key value r parsed,
    In (key, value) config /\
    toRemote (key, value) = Some r /\
    parseGitUrl value = Js.Normal parsed /\
    isGitHubHost gitHubHostEnv (hostname parsed) = true /\
    projectOfUrl parsed = Some project.
Proof.
  rewrite getProjectName_resolution.
  destruct (getRemoteUrls config (branchRemoteOf branch config))
    as [remoteUrls |] eqn:E; [| discriminate].
  destruct (firstProjectOfUrls parseGitUrl gitHubHostEnv remoteUrls)
    as [p |] eqn:F; [| discriminate].
  intros H. injection H as ->.
  apply firstProjectOfUrls_Some in F. destruct F as [u [Hin Hu]].
  apply getRemoteUrls_values in E. destruct E as [remotes [-> [Hperm _]]].
  apply in_map_iff in Hin. destruct Hin as [r [<- Hin]].
  apply (Permutation_in _ (Permutation_sym Hperm)) in Hin.
  apply in_extractRemotes in Hin. destruct Hin as [key [Hin Hr]].
  apply projectOfRemoteUrl_Some in Hu. destruct Hu as [parsed Hu].
  exists key, (url r), r, parsed. tauto.
Qed.

(** X14: on a configuration object, [getProjectName] throws the error of
    its last statement exactly when no remote entry stands for a project,
    and it throws no other error. *)
Theorem getProjectName_fails_iff_no_project
  (branch : option string) (config : Config) (heap : Js.Ref) :
  NoDup (map fst config) ->
  (getProjectName parseGitUrl gitHubHostEnv branch config heap
     = Js.Throw noRemoteRecognized <->
   forall key value r,
     In (key, value) config -> toRemote (key, value) = Some r ->
     projectOfRemoteUrl parseGitUrl gitHubHostEnv value = None) /\
  (forall e,
     getProjectName parseGitUrl gitHubHostEnv branch config heap = Js.Throw e ->
     e = noRemoteRecognized).
Proof.
  intros Hnodup. rewrite getProjectName_resolution.
  destruct (sortedRemotes_total config (branchRemoteOf branch config) Hnodup)
    as [remotes E].
  destruct (sort_remotes_normal _ _ _ E) as [Hperm _].
  unfold getRemoteUrls. rewrite E. simpl.
  destruct (firstProjectOfUrls parseGitUrl gitHubHostEnv (map url remotes))
    as [p |] eqn:F.
  - split; [split; [discriminate |] | discriminate].
    intros Hnone. exfalso.
    apply firstProjectOfUrls_Some in F. destruct F as [u [Hin Hu]].
    apply in_map_iff in Hin. destruct Hin as [r [<- Hin]].
    apply (Permutation_in _ (Permutation_sym Hperm)) in Hin.
    apply in_extractRemotes in Hin. destruct Hin as [key [Hin Hr]].
    rewrite (Hnone key (url r) r Hin Hr) in Hu. discriminate Hu.
  - split; [split; [intros _ | reflexivity] |].
    + intros key value r Hin Hr.
      rewrite firstProjectOfUrls_None in F. apply F.
      destruct (toRemote_key _ _ _ Hr) as [_ <-].
      apply in_map. apply (Permutation_in _ Hperm).
      apply in_extractRemotes. exists key. auto.
    + intros e H. injection H as <-. reflexivity.
Qed.

End ResolutionFacts.

Lemma getProjectName_sound_witness :
  exists key value r parsed,
    In (key, value) testConfig /\
    toRemote (key, value) = Some r /\
    parseTestUrl value = Js.Normal parsed /\
    isGitHubHost None (hostname parsed) = true /\
    projectOfUrl parsed = Some ("branchpush", "hub-ci-status").
Proof.
  apply (getProjectName_sound parseTestUrl None (Some "main") testConfig 0).
  reflexivity.
Defined.

Lemma getProjectName_fails_iff_no_project_witness :
  getProjectName parseTestUrl None (Some "main")
    [("core.bare", "false");
     ("remote.remote1.url", "https://github.com/foo/bar/baz.git")] 0
  = Js.Throw noRemoteRecognized.
Proof.
  apply (getProjectName_fails_iff_no_project parseTestUrl None (Some "main")
           [("core.bare", "false");
            ("remote.remote1.url", "https://github.com/foo/bar/baz.git")] 0).
  - repeat (constructor;
            [simpl; intros H;
             repeat (destruct H as [H | H]; [discriminate H |]); exact H |]).
    constructor.
  - intros key value r [H | [H | []]] Hr; injection H as <- <-.
    + discriminate Hr.
    + reflexivity.
Defined.

(** ** Which remote decides *)

Lemma StronglySorted_before {A} (R : A -> A -> Prop) front x back :
  StronglySorted R (front ++ x :: back)%list ->
  Forall (fun y => R y x) front.
Proof.
  induction front as [| y front IH]; simpl; intros Hs.
  - constructor.
  - apply StronglySorted_inv in Hs. destruct Hs as [Hs Hall].
    constructor; [| apply IH, Hs].
    rewrite Forall_forall in Hall. apply Hall, in_or_app.
    right. left. reflexivity.
Qed.

Lemma precedes_irrefl branchRemote r : ~ precedes branchRemote r r.
Proof. intros H. exact (precedes_asym _ _ _ H H). Qed.

(** The entry that precedes every other entry standing for a project
    decides. *)
Lemma resolution_of_first_ranked
  (parseGitUrl : string -> Js.completion URL) (gitHubHostEnv : option string)
  (branch : option string) (config : Config) (heap : Js.Ref)
  (r : Remote) (project : string * string) :
  NoDup (map fst config) ->
  In r (extractRemotes config) ->
  projectOfRemoteUrl parseGitUrl gitHubHostEnv (url r) = Some project ->
  (forall r',
     In r' (extractRemotes config) ->
     projectOfRemoteUrl parseGitUrl gitHubHostEnv (url r') <> None ->
     r' = r \/ precedes (branchRemoteOf branch config) r r') ->
  getProjectName parseGitUrl gitHubHostEnv branch config heap
  = Js.Normal project.
Proof.
  intros Hnodup Hin Hproject Hfirst.
  rewrite getProjectName_resolution.
  destruct (sortedRemotes_total config (branchRemoteOf branch config) Hnodup)
    as [remotes E].
  destruct (sort_remotes_normal _ _ _ E) as [Hperm Hsorted].
  unfold getRemoteUrls. rewrite E. simpl.
  assert (Hin' : In r remotes) by (apply (Permutation_in _ Hperm), Hin).
  apply in_split in Hin'. destruct Hin' as [front [back ->]].
  rewrite map_app. simpl map.
  rewrite (firstProjectOfUrls_skip parseGitUrl gitHubHostEnv
             (map url front) (url r) (map url back) project);
    [reflexivity | | exact Hproject].
  intros u Hu. apply in_map_iff in Hu. destruct Hu as [r' [<- Hr']].
  pose proof (StronglySorted_before _ _ _ _ Hsorted) as Hbefore.
  rewrite Forall_forall in Hbefore. specialize (Hbefore r' Hr').
  destruct (projectOfRemoteUrl parseGitUrl gitHubHostEnv (url r')) eqn:F;
    [exfalso | reflexivity].
  destruct (Hfirst r') as [-> | Hafter].
  - apply (Permutation_in _ (Permutation_sym Hperm)), in_or_app.
    left. exact Hr'.
  - rewrite F. discriminate.
  - exact (precedes_irrefl _ _ Hbefore).
  - exact (precedes_asym _ _ _ Hbefore Hafter).
Qed.

Lemma config_value_unique (config : Config) key value1 value2 :
  NoDup (map fst config) ->
  In (key, value1) config -> In (key, value2) config -> value1 = value2.
Proof.
  induction config as [| [k v] config IH]; simpl; intros Hnodup H1 H2;
    [destruct H1 |].
  apply NoDup_cons_iff in Hnodup. destruct Hnodup as [Hnotin Hnodup].
  destruct H1 as [H1 | H1], H2 as [H2 | H2].
  - congruence.
  - injection H1 as -> ->. destruct Hnotin.
    apply (in_map fst _ _ H2).
  - injection H2 as -> ->. destruct Hnotin.
    apply (in_map fst _ _ H1).
  - apply IH; assumption.
Qed.

(** X15: on a configuration object, [getProjectName] returns the project
    of the remote entry that stands for a project and precedes, in the order
    of the remotes (names compared by code unit), every other entry that
    stands for one. *)
Theorem getProjectName_first_ranked
  (parseGitUrl : string -> Js.completion URL) (gitHubHostEnv : option string)
  (branch : option string) (config : Config) (heap : Js.Ref)
  (key value : string) (r : Remote) (project : string * string) :
  NoDup (map fst config) ->
  In (key, value) config ->
  toRemote (key, value) = Some r ->
  projectOfRemoteUrl parseGitUrl gitHubHostEnv value = Some project ->
  (forall key' value' r',
     In (key', value') config ->
     toRemote (key', value') = Some r' ->
     projectOfRemoteUrl parseGitUrl gitHubHostEnv value' <> None ->
     key' = key \/ precedes (branchRemoteOf branch config) r r') ->
  getProjectName parseGitUrl gitHubHostEnv branch config heap
  = Js.Normal project.
Proof.
  intros Hnodup Hin Hr Hproject Hfirst.
  destruct (toRemote_key _ _ _ Hr) as [_ Hvalue].
  apply (resolution_of_first_ranked parseGitUrl gitHubHostEnv branch config
           heap r project Hnodup).
  - apply in_extractRemotes. exists key. rewrite Hvalue. auto.
  - rewrite Hvalue. exact Hproject.
  - intros r' Hin' Hproject'.
    apply in_extractRemotes in Hin'. destruct Hin' as [key' [Hin' Hr']].
    destruct (Hfirst key' (url r') r' Hin' Hr' Hproject') as [-> | Hp];
      [left | right; exact Hp].
    pose proof (config_value_unique _ _ _ _ Hnodup Hin Hin') as Hv.
    rewrite <- Hv in Hr'. congruence.
Qed.

Lemma getProjectName_first_ranked_witness :
  getProjectName parseTestUrl None None
    [("remote.origin.url", "https://github.com/origin/hub-ci-status.git");
     ("remote.upstream.url", "https://github.com/upstream/hub-ci-status.git")]
    0
  = Js.Normal ("upstream", "hub-ci-status").
Proof.
  apply (getProjectName_first_ranked parseTestUrl None None
           [("remote.origin.url",
             "https://github.com/origin/hub-ci-status.git");
            ("remote.upstream.url",
             "https://github.com/upstream/hub-ci-status.git")]
           0 "remote.upstream.url"
           "https://github.com/upstream/hub-ci-status.git"
           (mkRemote "upstream" false
              "https://github.com/upstream/hub-ci-status.git")).
  - repeat (constructor;
            [simpl; intros H;
             repeat (destruct H as [H | H]; [discriminate H |]); exact H |]).
    constructor.
  - right. left. reflexivity.
  - reflexivity.
  - reflexivity.
  - intros key' value' r' [H | [H | []]] Hr' _; injection H as <- <-.
    + right. injection Hr' as <-.
      apply preferred_first; [split; discriminate | vm_compute; lia].
    + left. reflexivity.
Defined.

Lemma toRemote_of_key n (p : bool) value :
  hasLineTerminator n = false ->
  toRemote ("remote." ++ n ++ "." ++ (if p then "pushurl" else "url"), value)
  = Some (mkRemote n p value).
Proof.
  intros Hno. unfold toRemote, regexp_exec.
  rewrite match_literal_prefix.
  rewrite match_name_url_complete; [| exact Hno | destruct p; auto].
  destruct p; reflexivity.
Qed.

(** X16: on a configuration object, when the remote configured for the
    current branch has a name without line terminator and a push URL that
    stands for a project, that project is what [getProjectName] returns,
    whatever the other remotes. *)
Theorem getProjectName_branch_pushurl
  (parseGitUrl : string -> Js.completion URL) (gitHubHostEnv : option string)
  (branch : option string) (config : Config) (heap : Js.Ref)
  (remote value : string) (project : string * string) :
  NoDup (map fst config) ->
  branchRemoteOf branch config = Some remote ->
  hasLineTerminator remote = false ->
  In ("remote." ++ remote ++ ".pushurl", value) config ->
  projectOfRemoteUrl parseGitUrl gitHubHostEnv value = Some project ->
  getProjectName parseGitUrl gitHubHostEnv branch config heap
  = Js.Normal project.
Proof.
  intros Hnodup Hbranch Hno Hin Hproject.
  pose proof (toRemote_of_key remote true value Hno) as Hr.
  apply (resolution_of_first_ranked parseGitUrl gitHubHostEnv branch config
           heap (mkRemote remote true value) project Hnodup).
  - apply in_extractRemotes. exists ("remote." ++ remote ++ ".pushurl").
    simpl url. auto.
  - exact Hproject.
  - intros r' Hin' _. rewrite Hbranch.
    apply in_extractRemotes in Hin'. destruct Hin' as [key' [Hin' Hr']].
    destruct (compareRemotes_outcome (Some remote)
                (mkRemote remote true value) r')
      as [z _ Hp | z _ Hp | e [Hn Hq] _].
    + right. exact Hp.
    + exfalso.
      destruct Hp as [B1 B2 | B12 P12 | B12 P12 L12 | N12 Q1 Q2];
        simpl in *.
      * apply B2. reflexivity.
      * assert (name r' = remote) as En
          by (apply proj2 in B12; specialize (B12 eq_refl); congruence).
        rewrite En in P12. lia.
      * assert (name r' = remote) as En
          by (apply proj2 in B12; specialize (B12 eq_refl); congruence).
        rewrite En in L12. exact (lexBefore_irrefl _ L12).
      * discriminate Q2.
    + left. simpl in Hn, Hq.
      destruct (toRemote_key _ _ _ Hr') as [Hkey' _].
      rewrite <- Hn, <- Hq in Hkey'. subst key'.
      pose proof (config_value_unique _ _ _ _ Hnodup Hin Hin') as Hv.
      destruct r' as [n' p' u']. simpl in *. congruence.
Qed.

Lemma getProjectName_branch_pushurl_witness :
  getProjectName parseTestUrl None (Some "main") testConfig 0
  = Js.Normal ("branchpush", "hub-ci-status").
Proof.
  apply (getProjectName_branch_pushurl parseTestUrl None (Some "main")
           testConfig 0 "remote2"
           "https://github.com/branchpush/hub-ci-status.git").
  - repeat (constructor;
            [simpl; intros H;
             repeat (destruct H as [H | H]; [discriminate H |]); exact H |]).
    constructor.
  - reflexivity.
  - reflexivity.
  - simpl. tauto.
  - reflexivity.
Defined.

(** ** The remotes, by precedence *)

(** C1: for a configuration object (its keys are pairwise distinct) and any
    branch remote, the entries of [getRemoteUrls] are exactly those of the
    keys [remote.<name>.url] and [remote.<name>.pushurl], each once, with the
    name, the push flag and the value of its key, and they come out ordered
    by the strict order of the specification: every entry precedes all
    entries after it, where the branch remote precedes all others, then
    [upstream], [github], [origin] in that order precede unlisted names,
    then names ascend lexicographically by code unit, and for one name the
    push URL precedes the fetch URL.  [getRemoteUrls] returns their URLs in
    that order. *)
Theorem remotes_ordered_by_precedence
  (config : Config) (branchRemote : option string) :
  NoDup (map fst config) ->
  exists remotes,
    sortedRemotes config branchRemote = Js.Normal remotes /\
    Permutation (extractRemotes config) remotes /\
    StronglySorted (precedes branchRemote) remotes /\
    getRemoteUrls config branchRemote = Js.Normal (map url remotes) /\
    NoDup remotes /\
    (forall r,
       In r remotes <->
       exists key,
         In (key, url r) config /\
         key = "remote." ++ name r ++ "."
               ++ (if isPush r then "pushurl" else "url") /\
         hasLineTerminator (name r) = false).
Proof.
  intros Hnodup.
  destruct (sortedRemotes_total config branchRemote Hnodup) as [remotes E].
  exists remotes. split; [exact E |].
  destruct (sort_remotes_normal _ _ _ E) as [Hperm Hsorted].
  split; [exact Hperm | split; [exact Hsorted | split; [| split]]].
  - unfold getRemoteUrls. rewrite E. reflexivity.
  - clear - Hsorted.
    induction Hsorted as [| r l _ IH Hall]; constructor; [| exact IH].
    intros Hin. rewrite Forall_forall in Hall.
    exact (precedes_irrefl _ _ (Hall r Hin)).
  - intros r. split.
    + intros Hin. apply (Permutation_in _ (Permutation_sym Hperm)) in Hin.
      apply in_extractRemotes in Hin. destruct Hin as [key [Hin Hr]].
      exists key. split; [exact Hin |].
      apply toRemote_characterised in Hr. tauto.
    + intros [key [Hin [Hkey Hno]]].
      apply (Permutation_in _ Hperm), in_extractRemotes.
      exists key. split; [exact Hin |].
      apply toRemote_characterised. auto.
Qed.

Lemma remotes_ordered_by_precedence_witness :
  exists remotes,
    sortedRemotes testConfig (Some "remote2") = Js.Normal remotes /\
    Permutation (extractRemotes testConfig) remotes /\
    StronglySorted (precedes (Some "remote2")) remotes /\
    getRemoteUrls testConfig (Some "remote2") = Js.Normal (map url remotes) /\
    NoDup remotes /\
    (forall r,
       In r remotes <->
       exists key,
         In (key, url r) testConfig /\
         key = "remote." ++ name r ++ "."
               ++ (if isPush r then "pushurl" else "url") /\
         hasLineTerminator (name r) = false).
Proof.
  apply (remotes_ordered_by_precedence testConfig (Some "remote2")).
  repeat (constructor;
          [simpl; intros H;
           repeat (destruct H as [H | H]; [discriminate H |]); exact H |]).
  constructor.
Defined.

End GithubUtilsProps.
